(** * Handwriting synthesis: stroke post-processing pipeline: the embedding

    A shallow embedding of [drawing.py] (alphabet, offset/coordinate
    conversion, denoising, interpolation, messiness, alignment) and of
    the validation, sample post-processing and rendering in [demo.py]
    ([Hand.write], [Hand._sample], [Hand._draw]), followed by the
    properties of the specification that were checked against it.

    Conventions of the embedding.
    - A numeric array of shape (N, 3) is a [list row]; the three columns
      are [col0] (x), [col1] (y) and [col2] (eos, the pen-lift flag, kept
      as a number because the code compares it with [== 1]).
    - Scalars are exact rationals [Q]: every arithmetic step of the code
      is kept, rounding is not modelled.  Numeric equality of scalars is
      [==] ([Qeq]); [=] is used where the code copies a value.  The
      properties stated over this embedding are of the kinds that do
      not rest on exact arithmetic: shapes, the pen-lift column, which
      branch is taken, what is raised, which draws are made, the order
      of points.
    - Where a property depends on rounding, overflow or NaN (the offset
      round trip, [align] on a degenerate point set), the functions are
      embedded a second time over binary64 in [Binary64].
    - A Python [str] is the list of its code points ([N]).
    - Library calls whose result is not determined by this repository
      (random draws, sin and cos, the smoothing filter, the cubic
      interpolant, the generative network) are fields of the interfaces
      [Random], [Trig], [Signal] and [Backend].
    - In-place updates of an array are written as functional updates of
      the list; a loop is a recursive function over the iterated range. *)

From Stdlib Require Import QArith Qabs Qminmax Lqa ZArith Lia Ascii Floats.
From stdpp Require Import base gmap list.

Open Scope Q_scope.

(** ** Python values: exceptions and results *)

(** The exceptions the modelled code can raise.  The two [ValueError]s of
    [Hand.write] carry the data that the message interpolates. *)
Inductive exn : Type :=
  | LineTooLong (line_num : nat) (len : nat)
  | InvalidCharacter (char : N) (line_num : nat)
  | ValueError
  | IndexError
  | TypeError.

Inductive result (A : Type) : Type :=
  | Ok (a : A)
  | Raise (e : exn).
Arguments Ok {A} a.
Arguments Raise {A} e.

Definition rbind {A B} (m : result A) (k : A -> result B) : result B :=
  match m with
  | Ok a => k a
  | Raise e => Raise e
  end.

(** State passing, used for the global random generator and for the
    module-level [defaultdict]. *)
Definition State (S A : Type) : Type := S -> A * S.

Definition ret {S A} (a : A) : State S A := fun s => (a, s).

Definition bind {S A B} (m : State S A) (k : A -> State S B) : State S B :=
  fun s => let (a, s') := m s in k a s'.

(** State passing with exceptions, used for [Hand.write]: the state is
    the outside world (network session, files). *)
Definition IO (W A : Type) : Type := W -> result A * W.

Definition io_ret {W A} (a : A) : IO W A := fun w => (Ok a, w).

Definition io_bind {W A B} (m : IO W A) (k : A -> IO W B) : IO W B :=
  fun w => match m w with
           | (Ok a, w') => k a w'
           | (Raise e, w') => (Raise e, w')
           end.

Definition io_lift {W A} (r : result A) : IO W A := fun w => (r, w).

Declare Scope py_scope.
Delimit Scope py_scope with py.
Notation "x <- m ;; k" := (bind m (fun x => k))
  (at level 100, m at next level, right associativity) : py_scope.
Notation "x <-? m ;; k" := (rbind m (fun x => k))
  (at level 100, m at next level, right associativity) : py_scope.
Notation "x <-! m ;; k" := (io_bind m (fun x => k))
  (at level 100, m at next level, right associativity) : py_scope.
Open Scope py_scope.

(** ** drawing.py: the alphabet *)

Module Alphabet.

(** A character is its code point; a [str] is a list of characters. *)
Abbreviation pychar := N (only parsing).
Abbreviation pystr := (list N) (only parsing).

Definition ord (c : ascii) : pychar := N_of_ascii c.

(** [alphabet]: 73 symbols, ['\x00'] first. *)
Definition alphabet : list pychar :=
  map ord
    [ "000"; " "; "!"; "034"; "#"; "'"; "("; ")"; ","; "-"; ".";
      "0"; "1"; "2"; "3"; "4"; "5"; "6"; "7"; "8"; "9"; ":"; ";";
      "?"; "A"; "B"; "C"; "D"; "E"; "F"; "G"; "H"; "I"; "J"; "K";
      "L"; "M"; "N"; "O"; "P"; "R"; "S"; "T"; "U"; "V"; "W"; "Y";
      "a"; "b"; "c"; "d"; "e"; "f"; "g"; "h"; "i"; "j"; "k"; "l";
      "m"; "n"; "o"; "p"; "q"; "r"; "s"; "t"; "u"; "v"; "w"; "x";
      "y"; "z" ]%char.

(** [dict(pairs)]: later pairs overwrite earlier ones. *)
Definition dict_of_pairs (pairs : list (pychar * Z)) : gmap pychar Z :=
  foldl (fun d kv => <[kv.1 := kv.2]> d) ∅ pairs.

(** [alpha_to_num = defaultdict(int, list(map(reversed,
    enumerate(alphabet))))]: the initial contents of the table. *)
Definition alpha_to_num : gmap pychar Z :=
  dict_of_pairs (imap (fun i c => (c, Z.of_nat i)) alphabet).

(** [alpha_to_num[x]] on a [defaultdict(int)]: a missing key is
    inserted with [int() = 0] and that value is returned. *)
Definition getitem (x : pychar) : State (gmap pychar Z) Z :=
  fun d => match d !! x with
           | Some v => (v, d)
           | None => (0%Z, <[x := 0%Z]> d)
           end.

(** [list(map(lambda x: alpha_to_num[x], ascii_string))] *)
Fixpoint map_getitem (ascii_string : pystr) : State (gmap pychar Z) (list Z) :=
  match ascii_string with
  | [] => ret []
  | x :: rest =>
      v <- getitem x ;;
      vs <- map_getitem rest ;;
      ret (v :: vs)
  end.

(** [encode_ascii]: the looked-up indices followed by [0]. *)
Definition encode_ascii (ascii_string : pystr) : State (gmap pychar Z) (list Z) :=
  vs <- map_getitem ascii_string ;;
  ret (vs ++ [0%Z]).

(** The states the table can be in after any number of lookups: the
    initial entries are kept and every added key holds [0]. *)
Definition table_ok (d : gmap pychar Z) : Prop :=
  forall c : pychar,
    d !! c = alpha_to_num !! c \/ (alpha_to_num !! c = None /\ d !! c = Some 0%Z).

End Alphabet.

(** ** numpy: arrays of rows, slices, [where], [split], stacking *)

Module Np.

(** One row [[x, y, eos]] of an (N, 3) array. *)
Record row : Type := mk_row { col0 : Q; col1 : Q; col2 : Q }.

Abbreviation coords := (list row) (only parsing).

(** [a[s:e]] for non-negative [s] and [e] (clamped like Python). *)
Definition slice {A} (s e : nat) (a : list A) : list A := take (e - s) (drop s a).

(** [a[s:e] = new], [new] being as long as the slice. *)
Definition set_slice {A} (s e : nat) (new a : list A) : list A :=
  take s a ++ new ++ drop e a.

(** [np.where(mask)[0]]: the indices at which [mask] holds, ascending.
    [where_from i] numbers the first element [i]. *)
Fixpoint where_from (i : nat) (mask : list bool) : list nat :=
  match mask with
  | [] => []
  | b :: mask' => if b then i :: where_from (S i) mask' else where_from (S i) mask'
  end.

Definition np_where (mask : list bool) : list nat := where_from 0 mask.

(** [coords[:, 2] == 1] *)
Definition eos_mask (c : coords) : list bool := map (fun r => Qeq_bool (col2 r) 1) c.

(** [np.split(a, indices, axis=0)]: [a[:i0], a[i0:i1], ..., a[ik:]].
    [split_from prev] is the part of the result that starts at [prev]. *)
Fixpoint split_from {A} (prev : nat) (indices : list nat) (a : list A) : list (list A) :=
  match indices with
  | [] => [drop prev a]
  | i :: rest => slice prev i a :: split_from i rest a
  end.

Definition np_split {A} (a : list A) (indices : list nat) : list (list A) :=
  split_from 0 indices a.

(** [np.split(coords, np.where(coords[:, 2] == 1)[0] + 1, axis=0)],
    the stroke segmentation shared by [denoise] and [interpolate]. *)
Definition split_strokes (c : coords) : list coords :=
  np_split c (map S (np_where (eos_mask c))).

(** [np.vstack(arrays)]: raises [ValueError] on an empty list. *)
Definition np_vstack (arrays : list coords) : result coords :=
  match arrays with
  | [] => Raise ValueError
  | _ => Ok (concat arrays)
  end.

(** Stacking three columns of one length side by side
    ([np.hstack] / [np.concatenate(..., axis=1)]); columns of different
    lengths raise [ValueError]. *)
Fixpoint zip3 (xs ys es : list Q) : coords :=
  match xs, ys, es with
  | x :: xs', y :: ys', e :: es' => mk_row x y e :: zip3 xs' ys' es'
  | _, _, _ => []
  end.

Definition stack_columns (xs ys es : list Q) : result coords :=
  if ((length xs =? length ys) && (length ys =? length es))%nat
  then Ok (zip3 xs ys es)
  else Raise ValueError.

Fixpoint np_sum (a : list Q) : Q :=
  match a with
  | [] => 0
  | v :: a' => v + np_sum a'
  end.

(** [np.mean(a)] *)
Definition np_mean (a : list Q) : Q := np_sum a / inject_Z (Z.of_nat (length a)).

(** [np.pi] is the double nearest to pi; this is its exact value. *)
Definition np_pi : Q := 884279719003555 # 281474976710656.

(** [np.linspace(start, stop, num)] with the default [endpoint=True]:
    [num] samples [start + i * step], [step = (stop - start) / (num - 1)];
    a negative [num] raises [ValueError]. *)
Definition np_linspace (start stop : Q) (num : Z) : result (list Q) :=
  if (num <? 0)%Z then Raise ValueError
  else
    let div := (num - 1)%Z in
    let step := if (0 <? div)%Z then (stop - start) / inject_Z div else stop - start in
    Ok (map (fun i => start + inject_Z (Z.of_nat i) * step) (seq 0 (Z.to_nat num))).

End Np.


(** ** Library interfaces *)

(** The global generator behind [np.random]: each draw consumes
    generator state of type [G]. *)
Class Random (G : Type) : Type := {
  (** [np.random.uniform(low, high)] *)
  uniform : Q -> Q -> State G Q;
  (** one sample of [np.random.normal(loc, scale)] *)
  normal : Q -> Q -> State G Q
}.

Class Trig : Type := {
  np_sin : Q -> Q;
  np_cos : Q -> Q
}.

(** scipy.signal and scipy.interpolate. *)
Class Signal : Type := {
  (** [savgol_filter(x, window_length, polyorder, mode='nearest')]; in
      this mode the input is padded with its edge values, so every input
      length is accepted and the output is as long as the input. *)
  savgol_filter : list Q -> nat -> nat -> list Q;
  savgol_filter_length :
    forall x window_length polyorder,
      length (savgol_filter x window_length polyorder) = length x;
  (** [interp1d(np.arange(len(y)), y, kind='cubic')] at one abscissa of
      [[0, len(y) - 1]] *)
  interp1d_cubic : list Q -> Q -> Q
}.

(** ** drawing.py: offsets and coordinates *)

Module Drawing.
Import Np.

(** [coords[1:, :2] - coords[:-1, :2]] next to [coords[1:, 2:3]]: both
    operands have [len(coords) - 1] rows. *)
Definition offset_row (r prev : row) : row :=
  mk_row (col0 r - col0 prev) (col1 r - col1 prev) (col2 r).

Definition coords_to_offsets (c : coords) : coords :=
  let offsets := zip_with offset_row (drop 1 c) (removelast c) in
  mk_row 0 0 1 :: offsets.

(** [np.cumsum(a, axis=0)] on the two columns [a[:, :2]]: the first row
    is copied, each later row is the previous sum plus the row. *)
Fixpoint cumsum_from (acc : Q * Q) (a : list (Q * Q)) : list (Q * Q) :=
  match a with
  | [] => []
  | d :: a' =>
      let acc' := (acc.1 + d.1, acc.2 + d.2) in
      acc' :: cumsum_from acc' a'
  end.

Definition np_cumsum (a : list (Q * Q)) : list (Q * Q) :=
  match a with
  | [] => []
  | d :: a' => d :: cumsum_from d a'
  end.

(** The cumulative sums and [offsets[:, 2:3]] have the same number of
    rows, so the column concatenation cannot fail. *)
Definition offsets_to_coords (offsets : coords) : coords :=
  zip_with (fun xy r => mk_row xy.1 xy.2 (col2 r))
    (np_cumsum (map (fun r => (col0 r, col1 r)) offsets)) offsets.

(** ** drawing.py: [denoise] *)

Section WithSignal.
Context {signal : Signal}.

Definition denoise_stroke (stroke : coords) : result coords :=
  let x_new := savgol_filter (map col0 stroke) 7 3 in
  let y_new := savgol_filter (map col1 stroke) 7 3 in
  stack_columns x_new y_new (map col2 stroke).

(** [for stroke in coords: if len(stroke) != 0: ... new_coords.append] *)
Fixpoint denoise_loop (strokes : list coords) : result (list coords) :=
  match strokes with
  | [] => Ok []
  | stroke :: rest =>
      if (length stroke =? 0)%nat then denoise_loop rest
      else
        stroke' <-? denoise_stroke stroke ;;
        new_coords <-? denoise_loop rest ;;
        Ok (stroke' :: new_coords)
  end.

Definition denoise (c : coords) : result coords :=
  new_coords <-? denoise_loop (split_strokes c) ;;
  np_vstack new_coords.

(** ** drawing.py: [interpolate] *)

(** Calling the interpolant on an array: with the default
    [bounds_error], an abscissa outside [[0, len(y) - 1]] raises
    [ValueError]. *)
Definition in_range (y : list Q) (t : Q) : bool :=
  Qle_bool 0 t && Qle_bool t (inject_Z (Z.of_nat (length y) - 1)).

Definition interp1d_call (y x_new : list Q) : result (list Q) :=
  if forallb (in_range y) x_new
  then Ok (map (interp1d_cubic y) x_new)
  else Raise ValueError.

(** [np.hstack] of two columns. *)
Definition stack_xy (xs ys : list Q) : result (list (Q * Q)) :=
  if (length xs =? length ys)%nat then Ok (zip xs ys) else Raise ValueError.

(** [stroke_eos = np.zeros([n, 1]); stroke_eos[-1] = 1.0] *)
Definition rebuilt_eos (n : nat) : result (list Q) :=
  match n with
  | O => Raise IndexError
  | S m => Ok (replicate m 0 ++ [1])
  end.

Definition resample (factor : Z) (stroke : coords) : result (list (Q * Q)) :=
  let n := Z.of_nat (length stroke) in
  xx <-? np_linspace 0 (inject_Z (n - 1)) (factor * n) ;;
  yy <-? np_linspace 0 (inject_Z (n - 1)) (factor * n) ;;
  x_new <-? interp1d_call (map col0 stroke) xx ;;
  y_new <-? interp1d_call (map col1 stroke) yy ;;
  stack_xy x_new y_new.

(** The loop body for a stroke of non-zero length. *)
Definition interpolate_stroke (factor : Z) (stroke : coords) : result coords :=
  xy_coords <-? (if (3 <? length stroke)%nat
                 then resample factor stroke
                 else Ok (map (fun r => (col0 r, col1 r)) stroke)) ;;
  stroke_eos <-? rebuilt_eos (length xy_coords) ;;
  stack_columns (map fst xy_coords) (map snd xy_coords) stroke_eos.

Fixpoint interpolate_loop (factor : Z) (strokes : list coords) : result (list coords) :=
  match strokes with
  | [] => Ok []
  | stroke :: rest =>
      if (length stroke =? 0)%nat then interpolate_loop factor rest
      else
        stroke' <-? interpolate_stroke factor stroke ;;
        new_coords <-? interpolate_loop factor rest ;;
        Ok (stroke' :: new_coords)
  end.

Definition interpolate (c : coords) (factor : Z) : result coords :=
  new_coords <-? interpolate_loop factor (split_strokes c) ;;
  np_vstack new_coords.

End WithSignal.

(** ** drawing.py: [add_messiness] *)

Definition Qlt_b (a b : Q) : bool := if Qlt_le_dec a b then true else false.

Definition zero_row : row := mk_row 0 0 0.

(** [x_range = coords[-1, 0] - coords[0, 0]] *)
Definition drift_range (c : coords) : Q :=
  col0 (List.last c zero_row) - col0 (hd zero_row c).

(** [progress = (coords[i, 0] - coords[0, 0]) / x_range] for row [r]. *)
Definition drift_progress (c : coords) (r : row) : Q :=
  (col0 r - col0 (hd zero_row c)) / drift_range c.

(** [if rush_factor > 0 and len(coords) > 10:] ... [if x_range > 0:] *)
Definition drift_applies (rush_factor : Q) (c : coords) : bool :=
  Qlt_b 0 rush_factor && (10 <? length c)%nat && Qlt_b 0 (drift_range c).

Section WithRandom.
Context {G : Type} {random : Random G} {trig : Trig}.

(** Step 1, inside [if abs(total_lean) > 0.01]: rotation about the
    centroid of the stroke. *)
Definition lean (total_lean : Q) (stroke_coords : coords) : coords :=
  let center_x := np_mean (map col0 stroke_coords) in
  let center_y := np_mean (map col1 stroke_coords) in
  let cos_a := np_cos total_lean in
  let sin_a := np_sin total_lean in
  map (fun r =>
         let x := col0 r - center_x in
         let y := col1 r - center_y in
         mk_row (x * cos_a - y * sin_a + center_x)
                (x * sin_a + y * cos_a + center_y)
                (col2 r))
      stroke_coords.

(** Step 2: [stroke_coords[:, 1] += baseline_drift + rush_drift] *)
Definition shift_y (d : Q) (stroke_coords : coords) : coords :=
  map (fun r => mk_row (col0 r) (col1 r + d) (col2 r)) stroke_coords.

(** Step 3: vertical scaling about the mean of the y column. *)
Definition scale_y (size_variation : Q) (stroke_coords : coords) : coords :=
  let center_y := np_mean (map col1 stroke_coords) in
  map (fun r => mk_row (col0 r)
                       ((col1 r - center_y) * size_variation + center_y)
                       (col2 r))
      stroke_coords.

(** Step 4: horizontal scaling about the mean of the x column. *)
Definition scale_x (compression : Q) (stroke_coords : coords) : coords :=
  let center_x := np_mean (map col0 stroke_coords) in
  map (fun r => mk_row ((col0 r - center_x) * compression + center_x)
                       (col1 r)
                       (col2 r))
      stroke_coords.

(** [np.random.normal(loc, scale, (n, 2))]: [2 * n] draws in row order. *)
Fixpoint normal_rows (loc scale : Q) (n : nat) : State G (list (Q * Q)) :=
  match n with
  | O => ret []
  | S n' =>
      a <- normal loc scale ;;
      b <- normal loc scale ;;
      rest <- normal_rows loc scale n' ;;
      ret ((a, b) :: rest)
  end.

(** Step 5: [stroke_coords[:, :2] += pressure_noise * 0.3] *)
Definition add_pressure (pressure_noise : list (Q * Q)) (stroke_coords : coords) : coords :=
  zip_with (fun r e => mk_row (col0 r + e.1 * 0.3) (col1 r + e.2 * 0.3) (col2 r))
           stroke_coords pressure_noise.

(** The body of the stroke loop for a stroke of at least two rows. *)
Definition messy_stroke (normal_factor rush_factor : Q) (stroke_coords : coords)
  : State G coords :=
  let stroke_length := length stroke_coords in
  u <- uniform (-2) 8 ;;
  let base_lean := normal_factor * u * np_pi / 180 in
  u <- uniform 3 10 ;;
  let rush_lean := rush_factor * u * np_pi / 180 in
  let total_lean := base_lean + rush_lean in
  let stroke_coords :=
    if Qlt_b 0.01 (Qabs total_lean) then lean total_lean stroke_coords
    else stroke_coords in
  u <- uniform (-1) 1 ;;
  let baseline_drift := normal_factor * u in
  u <- uniform (-2) 2 ;;
  let rush_drift := rush_factor * u in
  let stroke_coords := shift_y (baseline_drift + rush_drift) stroke_coords in
  u <- uniform (-0.08) 0.08 ;;
  let base_size_var := normal_factor * u in
  u <- uniform (-0.12) 0.12 ;;
  let rush_size_var := rush_factor * u in
  let size_variation := 1 + base_size_var + rush_size_var in
  let stroke_coords := scale_y size_variation stroke_coords in
  let base_compression := normal_factor * 0.05 in
  let rush_compression := rush_factor * 0.15 in
  let compression := 1 - (base_compression + rush_compression) in
  let stroke_coords := scale_x compression stroke_coords in
  if (3 <? stroke_length)%nat then
    let pressure_var := normal_factor * 0.1 + rush_factor * 0.2 in
    pressure_noise <- normal_rows 0 pressure_var stroke_length ;;
    ret (add_pressure pressure_noise stroke_coords)
  else ret stroke_coords.

(** [for start, end in zip(stroke_starts, stroke_ends + 1)]:
    [stroke_coords] is a view of [coords[start:end]], so the updates
    land in [coords]. *)
Fixpoint stroke_loop (normal_factor rush_factor : Q) (bounds : list (nat * nat))
         (c : coords) : State G coords :=
  match bounds with
  | [] => ret c
  | (start, end_) :: rest =>
      let stroke_coords := slice start end_ c in
      if (length stroke_coords <? 2)%nat
      then stroke_loop normal_factor rush_factor rest c
      else
        stroke_coords <- messy_stroke normal_factor rush_factor stroke_coords ;;
        stroke_loop normal_factor rush_factor rest (set_slice start end_ stroke_coords c)
  end.

(** [coords[start:] += [total_spacing, 0, 0]] *)
Definition shift_from (start : nat) (total_spacing : Q) (c : coords) : coords :=
  take start c ++
  map (fun r => mk_row (col0 r + total_spacing) (col1 r + 0) (col2 r + 0)) (drop start c).

(** Step 6: [for i in range(1, len(stroke_starts))], given
    [stroke_starts[1:]]. *)
Fixpoint spacing_loop (normal_factor rush_factor : Q) (starts : list nat) (c : coords)
  : State G coords :=
  match starts with
  | [] => ret c
  | start :: rest =>
      u <- uniform (-2) 4 ;;
      let base_spacing := normal_factor * u in
      u <- uniform (-4) 8 ;;
      let rush_spacing := rush_factor * u in
      let total_spacing := base_spacing + rush_spacing in
      spacing_loop normal_factor rush_factor rest (shift_from start total_spacing c)
  end.

(** Step 7: the loop only writes column 1 and only reads column 0. *)
Definition drift_row (drift_amplitude : Q) (c : coords) (r : row) : row :=
  mk_row (col0 r)
         (col1 r + drift_amplitude * np_sin (drift_progress c r * np_pi))
         (col2 r).

Definition global_drift (rush_factor : Q) (c : coords) : State G coords :=
  if Qlt_b 0 rush_factor && (10 <? length c)%nat then
    if Qlt_b 0 (drift_range c) then
      u <- uniform (-3) 3 ;;
      let drift_amplitude := rush_factor * u in
      ret (map (drift_row drift_amplitude c) c)
    else ret c
  else ret c.

Definition add_messiness (c : coords) (messiness_factor : Q) : State G coords :=
  if Qle_bool messiness_factor 0 then ret c
  else
    let stroke_ends := np_where (eos_mask c) in
    let stroke_starts := 0%nat :: map S (removelast stroke_ends) in
    let normal_factor := if Qle_bool messiness_factor 1 then messiness_factor else 1 in
    let rush_factor := if Qle_bool messiness_factor 1 then 0 else messiness_factor - 1 in
    c <- stroke_loop normal_factor rush_factor (zip stroke_starts (map S stroke_ends)) c ;;
    c <- (if (1 <? length stroke_starts)%nat
          then spacing_loop normal_factor rush_factor (drop 1 stroke_starts) c
          else ret c) ;;
    global_drift rush_factor c.

End WithRandom.

End Drawing.

(** ** demo.py: validation in [Hand.write] *)

Module Hand.
Import Alphabet Np.

(** [valid_char_set = set(drawing.alphabet)] *)
Definition valid_char_set : gset pychar := list_to_set alphabet.

(** The inner loop [for char in line]. *)
Fixpoint check_chars (line_num : nat) (line : pystr) : result unit :=
  match line with
  | [] => Ok tt
  | char :: rest =>
      if bool_decide (char ∈ valid_char_set)
      then check_chars line_num rest
      else Raise (InvalidCharacter char line_num)
  end.

(** The body of the outer loop for one line. *)
Definition validate_line (line_num : nat) (line : pystr) : result unit :=
  if (75 <? length line)%nat
  then Raise (LineTooLong line_num (length line))
  else check_chars line_num line.

(** [for line_num, line in enumerate(lines)], from index [line_num]. *)
Fixpoint validate_from (line_num : nat) (lines : list pystr) : result unit :=
  match lines with
  | [] => Ok tt
  | line :: rest =>
      _ <-? validate_line line_num line ;;
      validate_from (S line_num) rest
  end.

Definition validate (lines : list pystr) : result unit := validate_from 0 lines.

(** The network and the renderer.  [session_run] stands for building
    the feed dictionary from the lines and [self.nn.session.run]; [Args]
    gathers the arguments that are only passed on ([filename], [biases],
    [styles], [stroke_colors], [stroke_widths]). *)
Class Backend (W Args : Type) : Type := {
  session_run : list pystr -> Args -> IO W (list coords);
  _draw : list coords -> list pystr -> Args -> Q -> IO W unit
}.

(** [np.all(sample == 0.0, axis=1)] for one row. *)
Definition all_zero (r : row) : bool :=
  Qeq_bool (col0 r) 0 && Qeq_bool (col1 r) 0 && Qeq_bool (col2 r) 0.

(** [sample[~np.all(sample == 0.0, axis=1)]]: selection by a boolean mask. *)
Definition strip_zero_rows (sample : coords) : coords :=
  List.filter (fun r => negb (all_zero r)) sample.

Section WithBackend.
Context {W Args : Type} {backend : Backend W Args}.

(** [max([len(i) for i in lines])] raises [ValueError] on an empty list,
    before the session is run. *)
Definition _sample (lines : list pystr) (args : Args) : IO W (list coords) :=
  match lines with
  | [] => io_lift (Raise ValueError)
  | _ =>
      samples <-! session_run lines args ;;
      io_ret (map strip_zero_rows samples)
  end.

Definition write (args : Args) (lines : list pystr) (messiness : Q) : IO W unit :=
  _ <-! io_lift (validate lines) ;;
  strokes <-! _sample lines args ;;
  _draw strokes lines args messiness.

End WithBackend.

End Hand.


(** * The offset conversions and [align] in binary64

    The arrays of the program hold IEEE 754 binary64 numbers.  The
    functions whose properties depend on rounding, overflow or NaN are
    embedded a second time here, operation by operation, over Rocq's
    primitive [float]; [+], [-], [*] and [/] are the correctly rounded
    operations of the processor. *)

Module Binary64.
#[local] Open Scope float_scope.
#[local] Set Warnings "-inexact-float".

(** One row [[x, y, eos]] of an (N, 3) array of dtype float64. *)
Record row : Type := mk_row { col0 : float; col1 : float; col2 : float }.

Abbreviation coords := (list row) (only parsing).

(** ** drawing.py: [coords_to_offsets], [offsets_to_coords] *)

(** [coords[1:, :2] - coords[:-1, :2]] next to [coords[1:, 2:3]] *)
Definition offset_row (r prev : row) : row :=
  mk_row (col0 r - col0 prev) (col1 r - col1 prev) (col2 r).

Definition coords_to_offsets (c : coords) : coords :=
  let offsets := zip_with offset_row (drop 1 c) (removelast c) in
  mk_row 0 0 1 :: offsets.

(** [np.cumsum(a, axis=0)]: the first row is copied, each later row is
    the previous sum plus the row, from the first row to the last. *)
Fixpoint cumsum_from (acc : float * float) (a : list (float * float)) : list (float * float) :=
  match a with
  | [] => []
  | d :: a' =>
      let acc' := (acc.1 + d.1, acc.2 + d.2) in
      acc' :: cumsum_from acc' a'
  end.

Definition np_cumsum (a : list (float * float)) : list (float * float) :=
  match a with
  | [] => []
  | d :: a' => d :: cumsum_from d a'
  end.

Definition offsets_to_coords (offsets : coords) : coords :=
  zip_with (fun xy r => mk_row xy.1 xy.2 (col2 r))
    (np_cumsum (map (fun r => (col0 r, col1 r)) offsets)) offsets.

(** ** drawing.py: [align] *)

Abbreviation matrix2 := ((float * float) * (float * float))%type (only parsing).

(** [np.linalg.inv] on a 2x2 matrix ([LinAlgError] is a [ValueError]),
    [np.arctan], [np.sin] and [np.cos] are the libraries'. *)
Class Linalg : Type := {
  np_linalg_inv : matrix2 -> result matrix2;
  np_arctan : float -> float
}.

Class Trig : Type := {
  np_sin : float -> float;
  np_cos : float -> float
}.

(** [np.dot(u, v)] for two vectors of one length; the products are added
    from the first to the last.  (The order in which the BLAS adds is not
    fixed by numpy; no property below depends on it.) *)
Definition dot (u v : list float) : float :=
  foldl (fun acc p => acc + p) 0 (zip_with PrimFloat.mul u v).

(** [np.ones([X.shape[0], 1])] *)
Definition ones (c : coords) : list float := map (fun _ => 1) c.

(** [X.T.dot(X)] for the design matrix [X = [1, x]]. *)
Definition normal_matrix (c : coords) : matrix2 :=
  let xs := map col0 c in
  ((dot (ones c) (ones c), dot (ones c) xs), (dot xs (ones c), dot xs xs)).

Section WithLinalg.
Context {linalg : Linalg} {trig : Trig}.

(** [offset, slope = np.linalg.inv(X.T.dot(X)).dot(X.T).dot(Y).squeeze()] *)
Definition regression (c : coords) : result (float * float) :=
  inv <-? np_linalg_inv (normal_matrix c) ;;
  let xs := map col0 c in
  let ys := map col1 c in
  let row0 := zip_with (fun o x => inv.1.1 * o + inv.1.2 * x) (ones c) xs in
  let row1 := zip_with (fun o x => inv.2.1 * o + inv.2.2 * x) (ones c) xs in
  Ok (dot row0 ys, dot row1 ys).

(** [coords[:, :2] = np.dot(coords[:, :2], rotation_matrix) - offset]:
    there is no test between the inversion and the return. *)
Definition align (c : coords) : result coords :=
  fit <-? regression c ;;
  let offset := fit.1 in
  let slope := fit.2 in
  let theta := np_arctan slope in
  let rotation_matrix := ((np_cos theta, - np_sin theta), (np_sin theta, np_cos theta)) in
  Ok (map (fun r =>
             mk_row (col0 r * rotation_matrix.1.1 + col1 r * rotation_matrix.2.1 - offset)
                    (col0 r * rotation_matrix.1.2 + col1 r * rotation_matrix.2.2 - offset)
                    (col2 r))
          c).

End WithLinalg.

End Binary64.

(** ** The wording of the specification, for comparison *)

Module Spec.
Import Np Hand.

(** "truncate at the first fully-zero row" *)
Fixpoint truncate_at_first_zero (sample : coords) : coords :=
  match sample with
  | [] => []
  | r :: rest => if all_zero r then [] else r :: truncate_at_first_zero rest
  end.

(** "strip trailing rows that are all-zero": an all-zero row is kept when
    a row that is not all-zero follows it. *)
Fixpoint strip_trailing_zeros (sample : coords) : coords :=
  match sample with
  | [] => []
  | r :: rest =>
      match strip_trailing_zeros rest with
      | [] => if all_zero r then [] else [r]
      | rest' => r :: rest'
      end
  end.

(** "xMin the minimum x, xRange the x-range of the sequence" *)
Definition x_min (c : coords) : Q :=
  foldr (fun r m => Qmin (col0 r) m) (col0 (hd Drawing.zero_row c)) c.

Definition x_max (c : coords) : Q :=
  foldr (fun r m => Qmax (col0 r) m) (col0 (hd Drawing.zero_row c)) c.

Definition x_range (c : coords) : Q := x_max c - x_min c.

(** "progress = (x - xMin) / xRange" *)
Definition progress (c : coords) (r : row) : Q := (col0 r - x_min c) / x_range c.

End Spec.

(** * Properties *)

(** ** Concrete instances of the library interfaces

    Used to run the definitions on examples.  The theorems below hold
    for every instance. *)

Module Fixtures.
Import Alphabet Np Hand.

(** A generator that replays a tape: [uniform] scales a recorded sample
    of [[0, 1)], [normal] a recorded standard-normal sample.  An empty
    tape replays [0]. *)
Definition tape_uniform (low high : Q) : State (list Q) Q :=
  fun g => match g with
           | [] => (low, [])
           | u :: g' => (low + (high - low) * u, g')
           end.

Definition tape_normal (loc scale : Q) : State (list Q) Q :=
  fun g => match g with
           | [] => (loc, [])
           | z :: g' => (loc + scale * z, g')
           end.

#[export] Instance tape_random : Random (list Q) :=
  {| uniform := tape_uniform; normal := tape_normal |}.

(** Taylor polynomials of sine and cosine. *)
Definition sin_poly (t : Q) : Q := t - t * t * t / 6 + t * t * t * t * t / 120.
Definition cos_poly (t : Q) : Q := 1 - t * t / 2 + t * t * t * t / 24.

#[export] Instance poly_trig : Trig := {| np_sin := sin_poly; np_cos := cos_poly |}.

(** The 7-point cubic smoothing filter with edge-value padding: the
    convolution of the padded signal with (-2, 3, 6, 7, 6, 3, -2) / 21. *)
Definition padded_nth (x : list Q) (k : Z) : Q :=
  nth (Z.to_nat (Z.max 0 (Z.min k (Z.of_nat (length x) - 1)))) x 0.

Definition smooth7_at (x : list Q) (i : nat) : Q :=
  let at_ (j : Z) := padded_nth x (Z.of_nat i + j) in
  ((-2) * at_ (-3)%Z + 3 * at_ (-2)%Z + 6 * at_ (-1)%Z + 7 * at_ 0%Z
   + 6 * at_ 1%Z + 3 * at_ 2%Z + (-2) * at_ 3%Z) / 21.

Definition smooth7 (x : list Q) (window_length polyorder : nat) : list Q :=
  map (smooth7_at x) (seq 0 (length x)).

Lemma smooth7_length (x : list Q) (window_length polyorder : nat) :
  length (smooth7 x window_length polyorder) = length x.
Proof. unfold smooth7. rewrite length_map, length_seq. reflexivity. Qed.

(** The cubic through the first four nodes [(j, y[j])]; on a four-point
    stroke this is the cubic interpolant itself. *)
Definition cubic4 (y : list Q) (t : Q) : Q :=
  let y_ (j : nat) := nth j y 0 in
  y_ 0%nat * ((t - 1) * (t - 2) * (t - 3)) / (-6)
  + y_ 1%nat * (t * (t - 2) * (t - 3)) / 2
  + y_ 2%nat * (t * (t - 1) * (t - 3)) / (-2)
  + y_ 3%nat * (t * (t - 1) * (t - 2)) / 6.

#[export] Instance reference_signal : Signal :=
  {| savgol_filter := smooth7;
     savgol_filter_length := smooth7_length;
     interp1d_cubic := cubic4 |}.

(** A world that records what was done to it. *)
Inductive event : Type :=
  | Generated (lines : list (list N))
  | Rendered (lines : list (list N)).

#[export] Instance logging_backend : Backend (list event) unit :=
  {| session_run := fun lines _ w => (Ok (map (fun _ => []) lines), w ++ [Generated lines]);
     _draw := fun _ lines _ _ w => (Ok tt, w ++ [Rendered lines]) |}.

(** Two strokes, of four and of two points. *)
Definition two_strokes : coords :=
  [mk_row 0 0 0; mk_row 1 2 0; mk_row 2 3 0; mk_row 3 3 1;
   mk_row 5 0 0; mk_row 6 1 1].

(** One stroke of four points. *)
Definition four_points : coords :=
  [mk_row 0 0 0; mk_row 1 2 0; mk_row 2 3 0; mk_row 3 3 1].

(** Twelve points in one stroke; the second lies left of the first. *)
Definition zigzag : coords :=
  [mk_row 1 0 0; mk_row 0 0 0; mk_row 2 0 0; mk_row 2 1 0; mk_row 2 2 0; mk_row 2 3 0;
   mk_row 2 4 0; mk_row 2 5 0; mk_row 2 6 0; mk_row 2 7 0; mk_row 2 8 0; mk_row 2 9 1].

(** Twelve points written from right to left. *)
Definition leftward : coords :=
  [mk_row 11 0 0; mk_row 10 0 0; mk_row 9 0 0; mk_row 8 0 0; mk_row 7 0 0; mk_row 6 0 0;
   mk_row 5 0 0; mk_row 4 0 0; mk_row 3 0 0; mk_row 2 0 0; mk_row 1 0 0; mk_row 0 0 1].

End Fixtures.

(** ** The alphabet table and [encode_ascii] *)

Module AlphabetProps.
Import Alphabet.

Lemma imap_fst_id {A B} (f : nat -> A -> A * B) (l : list A) :
  (forall i a, (f i a).1 = a) -> (imap f l).*1 = l.
Proof.
  revert f. induction l as [|a l IH]; intros f Hf; [reflexivity|].
  cbn. rewrite Hf. f_equal. apply IH. intros i b. apply Hf.
Qed.

Lemma dict_of_pairs_acc_None (pairs : list (pychar * Z)) (d : gmap pychar Z) (c : pychar) :
  d !! c = None -> c ∉ pairs.*1 ->
  foldl (fun d kv => <[kv.1 := kv.2]> d) d pairs !! c = None.
Proof.
  revert d. induction pairs as [|[k v] pairs IH]; intros d Hd Hc; [exact Hd|].
  cbn in *. apply not_elem_of_cons in Hc as [Hne Hc].
  apply IH; [|exact Hc]. rewrite lookup_insert_ne; [exact Hd|congruence].
Qed.

(** A character outside the alphabet has no entry in the initial table. *)
Lemma alpha_to_num_outside (c : pychar) : c ∉ alphabet -> alpha_to_num !! c = None.
Proof.
  intros Hc. unfold alpha_to_num, dict_of_pairs.
  apply dict_of_pairs_acc_None; [apply lookup_empty|].
  rewrite imap_fst_id; [exact Hc|reflexivity].
Qed.

Lemma table_ok_initial : table_ok alpha_to_num.
Proof. intros c. left. reflexivity. Qed.

(** One lookup keeps the table in a good state and answers with the
    initial entry, or with [0] where there is none. *)
Lemma getitem_spec (x : pychar) (d : gmap pychar Z) :
  table_ok d ->
  exists d', getitem x d = (default 0%Z (alpha_to_num !! x), d') /\ table_ok d'.
Proof.
  intros Hd. unfold getitem. destruct (d !! x) as [v|] eqn:Hx.
  - exists d. split; [|exact Hd].
    destruct (Hd x) as [Heq|[Hnone Hzero]].
    + rewrite <- Heq, Hx. reflexivity.
    + rewrite Hnone. cbn. congruence.
  - exists (<[x := 0%Z]> d). split.
    + destruct (Hd x) as [Heq|[_ Hzero]]; [|congruence].
      rewrite <- Heq, Hx. reflexivity.
    + intros c. destruct (decide (x = c)) as [->|Hne].
      * right. rewrite lookup_insert_eq. split; [|reflexivity].
        destruct (Hd c) as [Heq|[Hnone _]]; congruence.
      * rewrite lookup_insert_ne by exact Hne. apply Hd.
Qed.

Lemma map_getitem_spec (s : pystr) (d : gmap pychar Z) :
  table_ok d ->
  exists d', map_getitem s d = (map (fun c => default 0%Z (alpha_to_num !! c)) s, d')
             /\ table_ok d'.
Proof.
  revert d. induction s as [|x s IH]; intros d Hd.
  - exists d. split; [reflexivity|exact Hd].
  - destruct (getitem_spec x d Hd) as (d1 & Hget & Hd1).
    destruct (IH d1 Hd1) as (d2 & Hmap & Hd2).
    exists d2. split; [|exact Hd2].
    cbn. unfold bind. rewrite Hget, Hmap. reflexivity.
Qed.

(** C10. For every string [s] and every state of the table reached by
    earlier lookups, [encode_ascii s] returns (it raises nothing) a
    sequence of [len(s) + 1] indices that ends with the terminator [0],
    and encodes every character outside the alphabet as [0]; the table
    stays in such a state. *)
Theorem encode_ascii_terminated (s : pystr) (d : gmap pychar Z) :
  table_ok d ->
  exists out d',
    encode_ascii s d = (out, d') /\ table_ok d' /\
    length out = S (length s) /\
    last out = Some 0%Z /\
    forall i c, s !! i = Some c -> c ∉ alphabet -> out !! i = Some 0%Z.
Proof.
  intros Hd. destruct (map_getitem_spec s d Hd) as (d' & Hmap & Hd').
  eexists _, d'. split; [|split; [exact Hd'|]].
  - unfold encode_ascii, bind. rewrite Hmap. reflexivity.
  - split; [|split].
    + rewrite length_app, length_map. cbn. lia.
    + apply last_snoc.
    + intros i c Hi Hc.
      rewrite lookup_app_l by (rewrite length_map; eapply lookup_lt_Some; exact Hi).
      change (map ?f s) with (f <$> s).
      rewrite list_lookup_fmap, Hi.
      change (Some (default 0%Z (alpha_to_num !! c)) = Some 0%Z).
      rewrite (alpha_to_num_outside c Hc). reflexivity.
Qed.

(** The claim at [encode_ascii("Hé")] on the initial table. *)
Lemma encode_ascii_terminated_witness :
  exists out d',
    encode_ascii [72; 233]%N alpha_to_num = (out, d') /\ table_ok d' /\
    length out = 3%nat /\
    last out = Some 0%Z /\
    forall i c, [72; 233]%N !! i = Some c -> c ∉ alphabet -> out !! i = Some 0%Z.
Proof.
  apply (encode_ascii_terminated [72; 233]%N alpha_to_num).
  apply table_ok_initial.
Defined.

End AlphabetProps.

(** ** Validation in [Hand.write] *)

Module HandProps.
Import Alphabet Np Hand.

Lemma valid_char_set_alphabet (c : pychar) : c ∈ valid_char_set <-> c ∈ alphabet.
Proof. unfold valid_char_set. apply elem_of_list_to_set. Qed.

Lemma check_chars_ok (n : nat) (line : pystr) :
  Forall (fun c => c ∈ alphabet) line -> check_chars n line = Ok tt.
Proof.
  induction 1 as [|c line Hc _ IH]; [reflexivity|].
  cbn. rewrite bool_decide_eq_true_2 by (apply valid_char_set_alphabet, Hc).
  exact IH.
Qed.

(** The inner loop stops at the first character outside the alphabet. *)
Lemma check_chars_first_bad (n : nat) (pre post : pystr) (c : pychar) :
  Forall (fun c => c ∈ alphabet) pre -> c ∉ alphabet ->
  check_chars n (pre ++ c :: post) = Raise (InvalidCharacter c n).
Proof.
  intros Hpre Hc. induction Hpre as [|a pre Ha _ IH]; cbn.
  - rewrite bool_decide_eq_false_2; [reflexivity|].
    rewrite valid_char_set_alphabet. exact Hc.
  - rewrite bool_decide_eq_true_2 by (apply valid_char_set_alphabet, Ha).
    exact IH.
Qed.

Lemma validate_line_cases (n : nat) (line : pystr) :
  validate_line n line = Ok tt \/ exists e, validate_line n line = Raise e.
Proof. destruct (validate_line n line) as [[]|e]; eauto. Qed.

(** The outer loop succeeds exactly when every line does. *)
Lemma validate_from_ok (n : nat) (lines : list pystr) :
  (forall i line, lines !! i = Some line -> validate_line (n + i) line = Ok tt) ->
  validate_from n lines = Ok tt.
Proof.
  revert n. induction lines as [|line lines IH]; intros n Hall; [reflexivity|].
  cbn. rewrite <- (Nat.add_0_r n) at 1. rewrite (Hall 0%nat line eq_refl). cbn.
  apply IH. intros i l Hi.
  replace (S n + i)%nat with (n + S i)%nat by lia. apply Hall. exact Hi.
Qed.

(** The outer loop raises the error of the first line that fails. *)
Lemma validate_from_first_failure (n i : nat) (lines : list pystr) (line : pystr) :
  lines !! i = Some line -> validate_line (n + i) line <> Ok tt ->
  exists j bad e,
    (j <= i)%nat /\ lines !! j = Some bad /\
    validate_line (n + j) bad = Raise e /\ validate_from n lines = Raise e.
Proof.
  revert n i. induction lines as [|l lines IH]; intros n i Hi Hbad; [discriminate|].
  destruct (validate_line_cases n l) as [Hok|[e He]].
  - destruct i as [|i].
    + cbn in Hi. injection Hi as ->. rewrite Nat.add_0_r in Hbad. contradiction.
    + cbn in Hi. replace (n + S i)%nat with (S n + i)%nat in Hbad by lia.
      destruct (IH (S n) i Hi Hbad) as (j & bad & e & Hj & Hlk & He & Hv).
      exists (S j), bad, e. repeat split; [lia|exact Hlk| |].
      * replace (n + S j)%nat with (S n + j)%nat by lia. exact He.
      * cbn. rewrite Hok. exact Hv.
  - exists 0%nat, l, e. repeat split; [lia| |].
    + rewrite Nat.add_0_r. exact He.
    + cbn. rewrite He. reflexivity.
Qed.

Section WithBackend.
Context {W Args : Type} {backend : Backend W Args}.

(** A validation error leaves [write] before the network or the renderer
    is reached: the world is the one [write] was called in. *)
Lemma write_validation_error (args : Args) (lines : list pystr) (messiness : Q) (w : W) (e : exn) :
  validate lines = Raise e -> write args lines messiness w = (Raise e, w).
Proof. intros He. unfold write, io_bind, io_lift. rewrite He. reflexivity. Qed.

Lemma write_validation_ok (args : Args) (lines : list pystr) (messiness : Q) (w : W) :
  validate lines = Ok tt ->
  write args lines messiness w =
  (strokes <-! _sample lines args ;; _draw strokes lines args messiness) w.
Proof. intros Hok. unfold write, io_bind at 1, io_lift. rewrite Hok. reflexivity. Qed.

(** C4. A line of exactly 75 characters of the alphabet is accepted; a
    line of 76 characters is rejected with the length error; a line
    within the bound that holds a character outside the alphabet is
    rejected with the character error for that character and that line
    index.  Over a list of lines, [write] validates every line before
    [_sample] and [_draw] run: when some line fails, [write] raises the
    error of the first failing line and the world is untouched; when all
    lines pass, [write] continues with generation and rendering. *)
Theorem write_validates_before_generation (args : Args) (messiness : Q) (w : W) :
  (forall n line,
      length line = 75%nat -> Forall (fun c => c ∈ alphabet) line ->
      validate_line n line = Ok tt) /\
  (forall n line,
      length line = 76%nat -> validate_line n line = Raise (LineTooLong n 76)) /\
  (forall n pre c post,
      (length (pre ++ c :: post) <= 75)%nat ->
      Forall (fun c => c ∈ alphabet) pre -> c ∉ alphabet ->
      validate_line n (pre ++ c :: post) = Raise (InvalidCharacter c n)) /\
  (forall lines i line,
      lines !! i = Some line -> validate_line i line <> Ok tt ->
      exists j bad e,
        (j <= i)%nat /\ lines !! j = Some bad /\ validate_line j bad = Raise e /\
        write args lines messiness w = (Raise e, w)) /\
  (forall lines,
      (forall i line, lines !! i = Some line -> validate_line i line = Ok tt) ->
      write args lines messiness w =
      (strokes <-! _sample lines args ;; _draw strokes lines args messiness) w).
Proof.
  split; [|split; [|split; [|split]]].
  - intros n line Hlen Hall. unfold validate_line. rewrite Hlen. cbn.
    apply check_chars_ok, Hall.
  - intros n line Hlen. unfold validate_line. rewrite Hlen. reflexivity.
  - intros n pre c post Hlen Hpre Hc. unfold validate_line.
    destruct (Nat.ltb_spec 75 (length (pre ++ c :: post))) as [Hlt|_]; [lia|].
    apply check_chars_first_bad; assumption.
  - intros lines i line Hi Hbad.
    destruct (validate_from_first_failure 0 i lines line Hi Hbad)
      as (j & bad & e & Hj & Hlk & He & Hv).
    exists j, bad, e. repeat split; try assumption.
    apply write_validation_error. exact Hv.
  - intros lines Hall. apply write_validation_ok, validate_from_ok. exact Hall.
Qed.

End WithBackend.

End HandProps.

(** ** Post-processing of the sampled offsets in [Hand._sample] *)

Module SampleProps.
Import Np Hand.

(** A sampled line with an all-zero row between two strokes and one row
    of padding. *)
Definition padded_sample : coords :=
  [mk_row 1 0 0; mk_row 0 0 0; mk_row 2 0 1; mk_row 0 0 0].

Lemma strip_zero_rows_app (a b : coords) :
  strip_zero_rows (a ++ b) = strip_zero_rows a ++ strip_zero_rows b.
Proof. apply List.filter_app. Qed.

Lemma strip_zero_rows_data (data : coords) :
  Forall (fun r => all_zero r = false) data -> strip_zero_rows data = data.
Proof.
  induction 1 as [|r data Hr _ IH]; [reflexivity|].
  cbn. rewrite Hr. cbn. f_equal. exact IH.
Qed.

Lemma strip_zero_rows_padding (padding : coords) :
  Forall (fun r => all_zero r = true) padding -> strip_zero_rows padding = [].
Proof.
  induction 1 as [|r padding Hr _ IH]; [reflexivity|].
  cbn. rewrite Hr. cbn. exact IH.
Qed.

Lemma truncate_data_padding (data padding : coords) :
  Forall (fun r => all_zero r = false) data ->
  Forall (fun r => all_zero r = true) padding ->
  Spec.truncate_at_first_zero (data ++ padding) = data.
Proof.
  intros Hdata Hpad. induction Hdata as [|r data Hr _ IH]; cbn.
  - destruct Hpad as [|p padding Hp _]; [reflexivity|]. cbn. rewrite Hp. reflexivity.
  - rewrite Hr. f_equal. exact IH.
Qed.

Lemma strip_zero_rows_sublist (sample : coords) : sublist (strip_zero_rows sample) sample.
Proof.
  induction sample as [|r sample IH]; [constructor|].
  cbn. destruct (all_zero r); cbn; [apply sublist_cons|apply sublist_skip]; exact IH.
Qed.

(** C6, refuted as stated.  With an all-zero row between two strokes the
    pipeline neither truncates at that row nor keeps it: it returns the
    two other rows. *)
Lemma strip_zero_rows_is_not_truncation :
  strip_zero_rows padded_sample = [mk_row 1 0 0; mk_row 2 0 1] /\
  Spec.truncate_at_first_zero padded_sample = [mk_row 1 0 0] /\
  Spec.strip_trailing_zeros padded_sample = [mk_row 1 0 0; mk_row 0 0 0; mk_row 2 0 1] /\
  strip_zero_rows padded_sample <> Spec.truncate_at_first_zero padded_sample /\
  strip_zero_rows padded_sample <> Spec.strip_trailing_zeros padded_sample.
Proof. repeat split; try reflexivity; discriminate. Qed.

(** The number of rows of a sample that are zero in all three fields. *)
Definition zero_rows (sample : coords) : nat := length (List.filter all_zero sample).

Lemma strip_zero_rows_length (sample : coords) :
  (length (strip_zero_rows sample) + zero_rows sample = length sample)%nat.
Proof.
  unfold strip_zero_rows, zero_rows.
  induction sample as [|r sample IH]; [reflexivity|].
  cbn. destruct (all_zero r); cbn; lia.
Qed.

Lemma strip_zero_rows_keeps_none (sample : coords) :
  Forall (fun r => all_zero r = false) (strip_zero_rows sample).
Proof.
  unfold strip_zero_rows. induction sample as [|r sample IH]; [constructor|].
  cbn. destruct (all_zero r) eqn:E; cbn; [exact IH|constructor; assumption].
Qed.

(** A selection of rows none of which is all-zero has at most as many
    rows as the sample has rows that are not all-zero. *)
Lemma selection_bound (out sample : coords) :
  sublist out sample -> Forall (fun r => all_zero r = false) out ->
  (length out + zero_rows sample <= length sample)%nat.
Proof.
  unfold zero_rows. induction 1 as [|r out sample _ IH|r out sample _ IH]; intros Hout.
  - cbn. lia.
  - apply Forall_cons in Hout as [Hr Hout]. cbn. rewrite Hr. cbn. specialize (IH Hout). lia.
  - specialize (IH Hout). cbn. destruct (all_zero r); cbn; lia.
Qed.

(** The rows in order, without the all-zero ones and with nothing else
    missing: there is one such selection. *)
Lemma selection_unique (out sample : coords) :
  sublist out sample -> Forall (fun r => all_zero r = false) out ->
  (length out + zero_rows sample = length sample)%nat ->
  out = strip_zero_rows sample.
Proof.
  unfold strip_zero_rows.
  induction 1 as [|r out sample Hsub IH|r out sample Hsub IH]; intros Hout Hlen.
  - reflexivity.
  - apply Forall_cons in Hout as [Hr Hout]. unfold zero_rows in *. cbn in *.
    rewrite Hr in *. cbn in *. f_equal. apply IH; [exact Hout|lia].
  - pose proof (selection_bound out sample Hsub Hout) as Hbound.
    unfold zero_rows in *. cbn in *. destruct (all_zero r); cbn in *; [apply IH|]; [assumption|lia|lia].
Qed.

(** C6, amended.  For every per-line offset array the pipeline removes
    every row that is zero in all three fields, wherever it stands, and
    keeps all other rows in order: the result is the one selection of
    rows of the sample, in their order, that holds no all-zero row and
    misses no other row (it is shorter than the sample by exactly the
    number of all-zero rows).  Around any row the result is the result on
    the rows before it, the row itself unless it is all-zero, and the
    result on the rows after it; so an interior all-zero row is removed
    and the rows behind it are kept.  When the all-zero rows are exactly
    a trailing block of padding, the result is the array truncated at its
    first all-zero row. *)
Theorem strip_zero_rows_removes_every_zero_row (sample : coords) :
  (forall out,
      out = strip_zero_rows sample <->
      (sublist out sample /\ Forall (fun r => all_zero r = false) out /\
       (length out + zero_rows sample = length sample)%nat)) /\
  (forall before r after,
      sample = before ++ r :: after ->
      strip_zero_rows sample =
      strip_zero_rows before ++ (if all_zero r then [] else [r]) ++ strip_zero_rows after) /\
  (forall r, r ∈ strip_zero_rows sample <-> r ∈ sample /\ all_zero r = false) /\
  (forall data padding,
      sample = data ++ padding ->
      Forall (fun r => all_zero r = false) data ->
      Forall (fun r => all_zero r = true) padding ->
      strip_zero_rows sample = data /\ Spec.truncate_at_first_zero sample = data).
Proof.
  split; [|split; [|split]].
  - intros out. split.
    + intros ->. split; [apply strip_zero_rows_sublist|].
      split; [apply strip_zero_rows_keeps_none|apply strip_zero_rows_length].
    + intros (Hsub & Hout & Hlen). apply selection_unique; assumption.
  - intros before r after ->. rewrite strip_zero_rows_app.
    unfold strip_zero_rows. cbn [List.filter]. destruct (all_zero r); reflexivity.
  - intros r. unfold strip_zero_rows.
    rewrite !list_elem_of_In, List.filter_In, negb_true_iff. reflexivity.
  - intros data padding -> Hdata Hpad. split.
    + rewrite strip_zero_rows_app, strip_zero_rows_data, strip_zero_rows_padding
        by assumption.
      apply app_nil_r.
    + apply truncate_data_padding; assumption.
Qed.

End SampleProps.

(** ** Offsets and coordinates in binary64 *)

Module RoundingProps.
Import Binary64.
#[local] Open Scope float_scope.
#[local] Set Warnings "-inexact-float".

(** The consecutive differences [xs[j] - xs[j-1]], [j = 1, 2, ...], of a
    column. *)
Definition differences (xs : list float) : list float :=
  zip_with PrimFloat.sub (drop 1 xs) (removelast xs).

(** [((0 + d1) + d2) + ... + dn]: the sum in the order in which
    [np.cumsum] adds, every addition rounded. *)
Definition running_sum (ds : list float) : float := foldl PrimFloat.add 0 ds.

(** The rows [coords_to_offsets] appends after the sentinel, written as a
    recursion on the rows after [prev]. *)
Fixpoint deltas (prev : row) (rest : coords) : coords :=
  match rest with
  | [] => []
  | r :: rest' => offset_row r prev :: deltas r rest'
  end.

Lemma zip_with_removelast (r0 : row) (rest : coords) :
  zip_with offset_row rest (removelast (r0 :: rest)) = deltas r0 rest.
Proof.
  revert r0. induction rest as [|r1 rest IH]; intros r0; [reflexivity|].
  change (removelast (r0 :: r1 :: rest)) with (r0 :: removelast (r1 :: rest)).
  cbn [zip_with deltas]. f_equal. apply IH.
Qed.

Lemma coords_to_offsets_cons (r0 : row) (rest : coords) :
  coords_to_offsets (r0 :: rest) = mk_row 0 0 1 :: deltas r0 rest.
Proof. unfold coords_to_offsets. cbn [drop]. rewrite zip_with_removelast. reflexivity. Qed.

Lemma deltas_length (rest : coords) : forall prev, length (deltas prev rest) = length rest.
Proof. induction rest as [|r rest IH]; intros prev; [reflexivity|]. cbn. f_equal. apply IH. Qed.

(** Row [i] of the differences is row [i] of [rest] minus the row before
    it. *)
Lemma deltas_lookup (rest : coords) :
  forall (prev : row) (i : nat) (r : row),
    rest !! i = Some r ->
    exists p, (prev :: rest) !! i = Some p /\ deltas prev rest !! i = Some (offset_row r p).
Proof.
  induction rest as [|r1 rest IH]; intros prev i r Hi; [discriminate|].
  destruct i as [|i].
  - injection Hi as ->. exists prev. split; reflexivity.
  - cbn in Hi. destruct (IH r1 i r Hi) as (p & Hp & Hd). exists p. split; assumption.
Qed.

Lemma deltas_col0 (rest : coords) :
  forall prev, map col0 (deltas prev rest) = differences (col0 prev :: map col0 rest).
Proof.
  unfold differences. cbn [drop].
  induction rest as [|r rest IH]; intros prev; [reflexivity|].
  cbn [deltas map]. rewrite IH.
  change (removelast (col0 prev :: col0 r :: map col0 rest))
    with (col0 prev :: removelast (col0 r :: map col0 rest)).
  reflexivity.
Qed.

Lemma deltas_col1 (rest : coords) :
  forall prev, map col1 (deltas prev rest) = differences (col1 prev :: map col1 rest).
Proof.
  unfold differences. cbn [drop].
  induction rest as [|r rest IH]; intros prev; [reflexivity|].
  cbn [deltas map]. rewrite IH.
  change (removelast (col1 prev :: col1 r :: map col1 rest))
    with (col1 prev :: removelast (col1 r :: map col1 rest)).
  reflexivity.
Qed.

Lemma cumsum_length (a : list (float * float)) :
  forall acc, length (cumsum_from acc a) = length a.
Proof. induction a as [|d a IH]; intros acc; [reflexivity|]. cbn. f_equal. apply IH. Qed.

(** Row [i] of the running sums that start from [acc]. *)
Lemma cumsum_rows (D : coords) :
  forall (acc : float * float) (i : nat) (d : row),
    D !! i = Some d ->
    zip_with (fun xy r => mk_row xy.1 xy.2 (col2 r))
      (cumsum_from acc (map (fun r => (col0 r, col1 r)) D)) D !! i
    = Some (mk_row (foldl PrimFloat.add acc.1 (take (S i) (map col0 D)))
                   (foldl PrimFloat.add acc.2 (take (S i) (map col1 D)))
                   (col2 d)).
Proof.
  induction D as [|d0 D IH]; intros acc i d Hi; [discriminate|].
  destruct i as [|i].
  - injection Hi as ->. reflexivity.
  - cbn in Hi. cbn [map cumsum_from zip_with]. cbn [lookup list_lookup].
    rewrite (IH _ i d Hi). reflexivity.
Qed.

Lemma roundtrip_cons (c0 : row) (rest : coords) :
  offsets_to_coords (coords_to_offsets (c0 :: rest))
  = mk_row 0 0 1
      :: zip_with (fun xy r => mk_row xy.1 xy.2 (col2 r))
           (cumsum_from (0, 0) (map (fun r => (col0 r, col1 r)) (deltas c0 rest)))
           (deltas c0 rest).
Proof. rewrite coords_to_offsets_cons. reflexivity. Qed.

(** Adding to zero does not round. *)
Lemma add_zero_l (x : float) : is_nan x = false -> (0 + x =? x) = true.
Proof.
  unfold is_nan. intros H. apply negb_false_iff in H.
  rewrite FloatAxioms.eqb_spec in *. rewrite FloatAxioms.add_spec.
  change (Prim2SF 0) with (S754_zero false).
  destruct (Prim2SF x) as [s|s| |s m e]; try exact H; try discriminate H.
  destruct s; reflexivity.
Qed.

(** Three points whose y are 0.7, 0.1 and 0.2. *)
Definition rounding_example : coords := [mk_row 0 0.7 0; mk_row 0 0.1 0; mk_row 0 0.2 1].




End RoundingProps.

(** ** [align] in binary64 *)

Module AlignProps.
Import Binary64.
#[local] Open Scope float_scope.
#[local] Set Warnings "-inexact-float".

(** A reference for [np.linalg.inv] on a 2x2 matrix, after LAPACK's
    [gesv] with the identity as right-hand side: elimination with the
    larger entry of the first column as pivot, [LinAlgError] exactly when
    a pivot is zero, then substitution for the two columns of the
    identity. *)
Definition gesv_inv (M : matrix2) : result matrix2 :=
  let swap := abs M.1.1 <? abs M.2.1 in
  let p := if swap then M.2 else M.1 in
  let q := if swap then M.1 else M.2 in
  if p.1 =? 0 then Raise ValueError
  else
    let l := q.1 / p.1 in
    let u22 := q.2 - l * p.2 in
    if u22 =? 0 then Raise ValueError
    else
      let solve (b : float * float) :=
        let y2 := b.2 - l * b.1 in
        let x2 := y2 / u22 in
        ((b.1 - p.2 * x2) / p.1, x2) in
      let e1 := solve (if swap then (0, 1) else (1, 0)) in
      let e2 := solve (if swap then (1, 0) else (0, 1)) in
      Ok ((e1.1, e2.1), (e1.2, e2.2)).

(** Polynomials in place of the arctangent, the sine and the cosine. *)
Definition reference_linalg : Linalg :=
  {| np_linalg_inv := gesv_inv; np_arctan := fun t => t - t * t * t / 3 |}.

Definition reference_trig : Trig :=
  {| np_sin := fun t => t - t * t * t / 6; np_cos := fun t => 1 - t * t / 2 |}.

(** Three points that share one x: 0.3, and 1e200. *)
Definition shared_x : coords := [mk_row 0.3 0 0; mk_row 0.3 1 0; mk_row 0.3 2 1].
Definition far_shared_x : coords := [mk_row 1e200 0 0; mk_row 1e200 1 0; mk_row 1e200 2 1].

(** C9, refuted as stated.  The regression system of three points that
    share one x is singular.  For x = 0.3 the sums round so that the
    second pivot is 5.55e-17 and not zero: the inversion returns a matrix
    with entries of the order of 1e15 and [align] returns rows, no error
    is raised.  For x = 1e200 the sum of the squares overflows, the
    inverse holds NaN, and every x and y that [align] returns is NaN. *)
Lemma align_returns_on_shared_x :
  (exists M out,
      np_linalg_inv (Linalg := reference_linalg) (normal_matrix shared_x) = Ok M /\
      (1e15 <? M.1.1) = true /\
      align (linalg := reference_linalg) (trig := reference_trig) shared_x = Ok out /\
      length out = 3%nat) /\
  (exists out,
      align (linalg := reference_linalg) (trig := reference_trig) far_shared_x = Ok out /\
      length out = 3%nat /\
      Forall (fun r => is_nan (col0 r) = true /\ is_nan (col1 r) = true) out).
Proof.
  split.
  - eexists _, _. repeat split; vm_compute; reflexivity.
  - eexists. split; [vm_compute; reflexivity|]. split; [reflexivity|].
    repeat constructor.
Qed.

(** A number is NaN exactly when it differs from itself. *)
Lemma SFeqb_refl (s : spec_float) : s <> S754_nan -> SFeqb s s = true.
Proof.
  intros H. unfold SFeqb. destruct s as [b|b| |b m e]; [reflexivity| |contradiction|].
  - destruct b; reflexivity.
  - cbn. rewrite Z.compare_refl, Pos.compare_cont_refl. destruct b; reflexivity.
Qed.

Lemma is_nan_spec (x : float) : is_nan x = true <-> Prim2SF x = S754_nan.
Proof.
  unfold is_nan. rewrite negb_true_iff, FloatAxioms.eqb_spec. split.
  - intros H. destruct (Prim2SF x) eqn:E; try reflexivity;
      rewrite SFeqb_refl in H; discriminate.
  - intros ->. reflexivity.
Qed.

(** Subtracting NaN gives NaN. *)
Lemma sub_nan_r (a b : float) : is_nan b = true -> is_nan (a - b) = true.
Proof.
  rewrite !is_nan_spec, FloatAxioms.sub_spec. intros ->.
  destruct (Prim2SF a); reflexivity.
Qed.

Section WithLinalg.
Context {linalg : Linalg} {trig : Trig}.

(** C9, amended.  [align] makes no test of its own on the regression
    system or on its result: it raises exactly when [np.linalg.inv]
    raises on the normal matrix, and then that error; whenever
    [np.linalg.inv] returns, whatever it returns, [align] returns an
    array with the rows and the pen-lift column of its input.  NaN is
    passed on and not reported: when the fitted offset is NaN, every x
    and every y of the result is NaN. *)
Theorem align_has_no_guard (c : coords) :
  match np_linalg_inv (normal_matrix c) with
  | Raise e => align c = Raise e
  | Ok _ =>
      exists fit out,
        regression c = Ok fit /\
        align c = Ok out /\
        length out = length c /\
        map col2 out = map col2 c /\
        (is_nan fit.1 = true ->
         Forall (fun r => is_nan (col0 r) = true /\ is_nan (col1 r) = true) out)
  end.
Proof.
  unfold align, regression.
  destruct (np_linalg_inv (normal_matrix c)) as [inv|e]; [|reflexivity].
  cbn [rbind]. eexists _, _. split; [reflexivity|]. split; [reflexivity|].
  split; [apply length_map|]. split; [rewrite List.map_map; reflexivity|].
  intros Hnan. apply Forall_forall. intros r Hr.
  apply list_elem_of_In, in_map_iff in Hr as (r0 & <- & _).
  cbn [col0 col1 fst snd] in *. split; apply sub_nan_r, Hnan.
Qed.

End WithLinalg.

End AlignProps.

(** ** Slices, [np.where] and [np.split] *)

Module NpProps.
Import Np.

(** [len(stroke) != 0] *)
Definition nonempty (stroke : coords) : bool := negb (length stroke =? 0)%nat.

(** The index lists [np.split] is called with: weakly ascending, from
    [prev] on. *)
Fixpoint ascending_from (prev : nat) (indices : list nat) : Prop :=
  match indices with
  | [] => True
  | i :: rest => (prev <= i)%nat /\ ascending_from i rest
  end.

Lemma slice_then_drop {A} (prev i : nat) (a : list A) :
  (prev <= i)%nat -> slice prev i a ++ drop i a = drop prev a.
Proof.
  intros Hle. unfold slice.
  replace (drop i a) with (drop (i - prev) (drop prev a)).
  - apply take_drop.
  - rewrite drop_drop. f_equal. lia.
Qed.

(** The pieces of a split, put back together, are the array from the
    first cut on: [np.split] loses and repeats nothing. *)
Lemma concat_split_from {A} (indices : list nat) (a : list A) :
  forall prev, ascending_from prev indices -> concat (split_from prev indices a) = drop prev a.
Proof.
  induction indices as [|i rest IH]; intros prev Hasc; cbn.
  - apply app_nil_r.
  - destruct Hasc as [Hle Hrest]. rewrite (IH i Hrest). apply slice_then_drop, Hle.
Qed.

Lemma where_from_ascending (mask : list bool) :
  forall i prev, (prev <= S i)%nat -> ascending_from prev (map S (where_from i mask)).
Proof.
  induction mask as [|b mask IH]; intros i prev Hle; [exact I|].
  cbn. destruct b; cbn.
  - split; [exact Hle|]. apply IH. lia.
  - apply IH. lia.
Qed.

Lemma concat_filter_nonempty (strokes : list coords) :
  concat (List.filter nonempty strokes) = concat strokes.
Proof.
  induction strokes as [|stroke strokes IH]; [reflexivity|].
  cbn. unfold nonempty at 1. destruct stroke; cbn; [exact IH|].
  rewrite IH. reflexivity.
Qed.

Lemma filter_nonempty_all (strokes : list coords) :
  Forall (fun stroke => stroke <> []) (List.filter nonempty strokes).
Proof.
  induction strokes as [|stroke strokes IH]; [constructor|].
  cbn. unfold nonempty at 1. destruct stroke; cbn; [exact IH|].
  constructor; [discriminate|exact IH].
Qed.

Lemma concat_split_strokes (c : coords) : concat (split_strokes c) = c.
Proof.
  unfold split_strokes, np_split, np_where.
  rewrite concat_split_from; [reflexivity|]. apply where_from_ascending. lia.
Qed.

(** Bounds of the stroke loop of [add_messiness]:
    [zip(stroke_starts, stroke_ends + 1)] pairs every start with a later
    end. *)
Lemma stroke_bounds_cons (prev e : nat) (rest : list nat) :
  zip (prev :: map S (removelast (e :: rest))) (map S (e :: rest))
  = (prev, S e) :: zip (S e :: map S (removelast rest)) (map S rest).
Proof. destruct rest as [|e' rest]; reflexivity. Qed.

Lemma stroke_bounds_ordered (mask : list bool) :
  forall i prev, (prev <= S i)%nat ->
    Forall (fun b : nat * nat => (b.1 <= b.2)%nat)
      (zip (prev :: map S (removelast (where_from i mask))) (map S (where_from i mask))).
Proof.
  induction mask as [|b mask IH]; intros i prev Hle; [constructor|].
  cbn [where_from]. destruct b; [|apply IH; lia].
  rewrite stroke_bounds_cons. constructor; [exact Hle|]. apply IH. lia.
Qed.

Lemma zip3_columns (xs ys es : list Q) :
  length xs = length ys -> length ys = length es ->
  map col0 (zip3 xs ys es) = xs /\ map col1 (zip3 xs ys es) = ys /\
  map col2 (zip3 xs ys es) = es.
Proof.
  revert ys es. induction xs as [|x xs IH]; intros [|y ys] [|e es] Hxy Hye;
    try discriminate; [repeat split|].
  cbn in *. destruct (IH ys es) as (H0 & H1 & H2); [lia|lia|].
  rewrite H0, H1, H2. repeat split.
Qed.

Lemma stack_columns_ok (xs ys es : list Q) :
  length xs = length ys -> length ys = length es ->
  stack_columns xs ys es = Ok (zip3 xs ys es).
Proof.
  intros Hxy Hye. unfold stack_columns.
  rewrite Hxy, Hye, !Nat.eqb_refl. reflexivity.
Qed.

(** An array is determined by its three columns. *)
Lemma rows_of_columns (a b : coords) :
  map col0 a = map col0 b -> map col1 a = map col1 b -> map col2 a = map col2 b -> a = b.
Proof.
  revert b. induction a as [|[x y e] a IH]; intros [|[x' y' e'] b] H0 H1 H2;
    try discriminate; [reflexivity|].
  cbn in *. injection H0 as -> H0. injection H1 as -> H1. injection H2 as -> H2.
  f_equal. apply IH; assumption.
Qed.

Lemma eos_mask_of_column (a b : coords) :
  map col2 a = map col2 b -> eos_mask a = eos_mask b.
Proof.
  intros H. unfold eos_mask.
  change (map (fun r => Qeq_bool (col2 r) 1) a) with (map ((fun e => Qeq_bool e 1) ∘ col2) a).
  change (map (fun r => Qeq_bool (col2 r) 1) b) with (map ((fun e => Qeq_bool e 1) ∘ col2) b).
  rewrite <- !(List.map_map col2 (fun e => Qeq_bool e 1)). rewrite H. reflexivity.
Qed.

End NpProps.

(** ** [denoise] *)

Module DenoiseProps.
Import Np Drawing NpProps.

Section WithSignal.
Context {signal : Signal}.

(** The filter returns columns of the stroke's length, so stacking them
    with the pen-lift column succeeds and that column is copied. *)
Lemma denoise_stroke_ok (stroke : coords) :
  exists stroke',
    denoise_stroke stroke = Ok stroke' /\
    length stroke' = length stroke /\ map col2 stroke' = map col2 stroke.
Proof.
  unfold denoise_stroke. eexists. split.
  - apply stack_columns_ok; rewrite ?savgol_filter_length, !length_map; reflexivity.
  - destruct (zip3_columns (savgol_filter (map col0 stroke) 7 3)
                (savgol_filter (map col1 stroke) 7 3) (map col2 stroke))
      as (_ & _ & H2); [rewrite ?savgol_filter_length, !length_map; reflexivity..|].
    split; [|exact H2].
    rewrite <- (length_map col2), H2, length_map. reflexivity.
Qed.

(** The loop smooths the strokes of non-zero length, in order, and skips
    the others. *)
Lemma denoise_loop_ok (strokes : list coords) :
  exists new_coords,
    denoise_loop strokes = Ok new_coords /\
    Forall2 (fun stroke stroke' =>
               denoise_stroke stroke = Ok stroke' /\
               length stroke' = length stroke /\ map col2 stroke' = map col2 stroke)
            (List.filter nonempty strokes) new_coords.
Proof.
  induction strokes as [|stroke strokes (new_coords & Hloop & Hall)]; cbn.
  - exists []. split; [reflexivity|constructor].
  - unfold nonempty at 1. destruct (length stroke =? 0)%nat; cbn.
    + exists new_coords. split; assumption.
    + destruct (denoise_stroke_ok stroke) as (stroke' & Hs & Hlen & Heos).
      exists (stroke' :: new_coords). rewrite Hs, Hloop. cbn.
      split; [reflexivity|]. constructor; [repeat split; assumption|exact Hall].
Qed.

Lemma concat_eos_preserved (strokes new_coords : list coords) :
  Forall2 (fun stroke stroke' =>
             denoise_stroke stroke = Ok stroke' /\
             length stroke' = length stroke /\ map col2 stroke' = map col2 stroke)
          strokes new_coords ->
  map col2 (concat new_coords) = map col2 (concat strokes).
Proof.
  induction 1 as [|stroke stroke' strokes new_coords (_ & _ & Heos) _ IH]; [reflexivity|].
  cbn. rewrite !map_app, Heos, IH. reflexivity.
Qed.

(** C8. For every non-empty coordinate sequence, [denoise] returns a
    result (also when a stroke is shorter than the 7-point window): the
    strokes of non-zero length, smoothed one by one and put back in
    order, the empty piece that [np.split] leaves after a final pen-lift
    being dropped.  The result has as many rows as the input and the same
    pen-lift column, so the stroke boundaries are the same in number and
    position. *)
Theorem denoise_preserves_stroke_boundaries (c : coords) :
  c <> [] ->
  exists out new_coords,
    denoise c = Ok out /\
    out = concat new_coords /\
    Forall2 (fun stroke stroke' =>
               denoise_stroke stroke = Ok stroke' /\
               length stroke' = length stroke /\ map col2 stroke' = map col2 stroke)
            (List.filter nonempty (split_strokes c)) new_coords /\
    length out = length c /\
    map col2 out = map col2 c /\
    np_where (eos_mask out) = np_where (eos_mask c).
Proof.
  intros Hne.
  destruct (denoise_loop_ok (split_strokes c)) as (new_coords & Hloop & Hall).
  assert (Heos : map col2 (concat new_coords) = map col2 c).
  { rewrite (concat_eos_preserved _ _ Hall), concat_filter_nonempty.
    rewrite concat_split_strokes. reflexivity. }
  exists (concat new_coords), new_coords.
  split; [|split; [reflexivity|split; [exact Hall|split; [|split]]]].
  - unfold denoise. rewrite Hloop. cbn. destruct new_coords as [|s ss]; [|reflexivity].
    cbn in Heos. destruct c; [contradiction|discriminate].
  - rewrite <- (length_map col2), Heos, length_map. reflexivity.
  - exact Heos.
  - f_equal. apply eos_mask_of_column, Heos.
Qed.

End WithSignal.

Import Fixtures.

(** The claim on two strokes of four and two points, both shorter than
    the window, with the reference filter. *)
Lemma denoise_preserves_stroke_boundaries_witness :
  exists out new_coords,
    denoise Fixtures.two_strokes = Ok out /\
    out = concat new_coords /\
    Forall2 (fun stroke stroke' =>
               denoise_stroke stroke = Ok stroke' /\
               length stroke' = length stroke /\ map col2 stroke' = map col2 stroke)
            (List.filter nonempty (split_strokes Fixtures.two_strokes)) new_coords /\
    length out = length Fixtures.two_strokes /\
    map col2 out = map col2 Fixtures.two_strokes /\
    np_where (eos_mask out) = np_where (eos_mask Fixtures.two_strokes).
Proof.
  apply (denoise_preserves_stroke_boundaries Fixtures.two_strokes).
  discriminate.
Defined.

End DenoiseProps.

(** ** [interpolate] *)

Module InterpolateProps.
Import Np Drawing NpProps.

(** A sample [i * (stop / d)] with [0 <= i <= d] lies in [[0, stop]]. *)
Lemma linspace_sample_in_range (i d : Z) (stop : Q) :
  (0 <= i <= d)%Z -> (0 < d)%Z -> 0 <= stop ->
  0 <= 0 + inject_Z i * ((stop - 0) / inject_Z d) /\
  0 + inject_Z i * ((stop - 0) / inject_Z d) <= stop.
Proof.
  intros [Hi0 Hid] Hd Hstop.
  assert (Ha : 0 <= inject_Z i) by (change 0 with (inject_Z 0); rewrite <- Zle_Qle; exact Hi0).
  assert (Hab : inject_Z i <= inject_Z d) by (rewrite <- Zle_Qle; exact Hid).
  assert (Hb : 0 < inject_Z d) by (change 0 with (inject_Z 0); rewrite <- Zlt_Qlt; exact Hd).
  assert (Heq : 0 + inject_Z i * ((stop - 0) / inject_Z d) == inject_Z i * stop / inject_Z d).
  { field. intros H. rewrite H in Hb. apply (Qlt_irrefl 0), Hb. }
  rewrite Heq. split.
  - apply Qle_shift_div_l; [exact Hb|]. rewrite Qmult_0_l. apply Qmult_le_0_compat; assumption.
  - apply Qle_shift_div_r; [exact Hb|]. rewrite (Qmult_comm stop).
    apply Qmult_le_compat_r; assumption.
Qed.

(** For a non-negative [num], [np.linspace(0, stop, num)] returns [num]
    samples, all in [[0, stop]]. *)
Lemma np_linspace_ok (stop : Q) (num : Z) :
  (0 <= num)%Z -> 0 <= stop ->
  exists xs,
    np_linspace 0 stop num = Ok xs /\
    length xs = Z.to_nat num /\
    Forall (fun t => 0 <= t /\ t <= stop) xs.
Proof.
  intros Hnum Hstop. unfold np_linspace.
  destruct (Z.ltb_spec num 0) as [Hneg|_]; [lia|].
  eexists. split; [reflexivity|]. split.
  - rewrite length_map, length_seq. reflexivity.
  - apply Forall_forall. intros t Ht.
    apply list_elem_of_In, in_map_iff in Ht as (i & <- & Hi).
    apply in_seq in Hi.
    destruct (Z.ltb_spec 0 (num - 1)) as [Hdiv|Hdiv].
    + apply linspace_sample_in_range; [lia|exact Hdiv|exact Hstop].
    + assert (i = 0%nat) as -> by lia.
      assert (E : 0 + inject_Z (Z.of_nat 0) * (stop - 0) == 0) by (cbn; ring).
      rewrite E. split; [apply Qle_refl|exact Hstop].
Qed.

Section WithSignal.
Context {signal : Signal}.

(** Abscissas inside the range of the data raise nothing. *)
Lemma interp1d_call_ok (y xs : list Q) :
  Forall (fun t => 0 <= t /\ t <= inject_Z (Z.of_nat (length y) - 1)) xs ->
  interp1d_call y xs = Ok (map (interp1d_cubic y) xs).
Proof.
  intros Hall. unfold interp1d_call.
  replace (forallb (in_range y) xs) with true; [reflexivity|].
  symmetry. apply forallb_forall. intros t Ht.
  rewrite Forall_forall in Hall. apply list_elem_of_In, Hall in Ht as [H0 H1].
  unfold in_range. apply andb_true_iff. split; apply Qle_bool_iff; assumption.
Qed.

(** With a factor of at least one, a stroke of more than three points is
    resampled at [factor * len(stroke)] abscissas, none outside the
    stroke's parameter range. *)
Lemma resample_ok (factor : Z) (stroke : coords) :
  (1 <= factor)%Z -> (3 < length stroke)%nat ->
  exists xy_coords,
    resample factor stroke = Ok xy_coords /\
    Z.of_nat (length xy_coords) = (factor * Z.of_nat (length stroke))%Z.
Proof.
  intros Hfactor Hlen. unfold resample.
  assert (Hstop : 0 <= inject_Z (Z.of_nat (length stroke) - 1)).
  { change 0 with (inject_Z 0). rewrite <- Zle_Qle. lia. }
  destruct (np_linspace_ok (inject_Z (Z.of_nat (length stroke) - 1))
              (factor * Z.of_nat (length stroke))) as (xs & Hxs & Hxlen & Hrange);
    [nia|exact Hstop|].
  rewrite Hxs. cbn.
  rewrite (interp1d_call_ok (map col0 stroke) xs) by (rewrite length_map; exact Hrange).
  rewrite (interp1d_call_ok (map col1 stroke) xs) by (rewrite length_map; exact Hrange).
  cbn. unfold stack_xy. rewrite !length_map, Nat.eqb_refl.
  eexists. split; [reflexivity|].
  rewrite length_zip_with, !length_map, Nat.min_id, Hxlen. rewrite Z2Nat.id; nia.
Qed.

(** What [interpolate] makes of one stroke of non-zero length: the
    pen-lift column is rebuilt as zeros closed by a single 1; a stroke
    of more than three points gets [factor] times as many rows; a stroke
    of at most three points keeps its x and y columns, hence comes back
    unchanged when its own pen-lift column already has that form. *)
Definition stroke_image (factor : Z) (stroke stroke' : coords) : Prop :=
  interpolate_stroke factor stroke = Ok stroke' /\
  map col2 stroke' = replicate (length stroke' - 1) 0 ++ [1] /\
  ((3 < length stroke)%nat ->
   Z.of_nat (length stroke') = (factor * Z.of_nat (length stroke))%Z) /\
  ((length stroke <= 3)%nat ->
   map col0 stroke' = map col0 stroke /\ map col1 stroke' = map col1 stroke /\
   (map col2 stroke = replicate (length stroke - 1) 0 ++ [1] -> stroke' = stroke)).

(** Closing a stroke of [S m] points [xy_coords] with a rebuilt pen-lift
    column. *)
Lemma close_stroke (xy_coords : list (Q * Q)) (m : nat) :
  length xy_coords = S m ->
  exists stroke',
    (stroke_eos <-? rebuilt_eos (length xy_coords) ;;
     stack_columns (map fst xy_coords) (map snd xy_coords) stroke_eos) = Ok stroke' /\
    length stroke' = S m /\
    map col0 stroke' = map fst xy_coords /\ map col1 stroke' = map snd xy_coords /\
    map col2 stroke' = replicate m 0 ++ [1].
Proof.
  intros Hlen. rewrite Hlen. cbn [rebuilt_eos rbind].
  assert (Hn : length (map snd xy_coords) = length (replicate m 0 ++ [1])).
  { rewrite length_map, length_app, length_replicate, Hlen. cbn. lia. }
  destruct (zip3_columns (map fst xy_coords) (map snd xy_coords) (replicate m 0 ++ [1]))
    as (H0 & H1 & H2); [rewrite !length_map; reflexivity|exact Hn|].
  eexists. split; [apply stack_columns_ok; [rewrite !length_map; reflexivity|exact Hn]|].
  repeat split; try assumption.
  rewrite <- (length_map col0), H0, length_map. exact Hlen.
Qed.

Lemma interpolate_stroke_ok (factor : Z) (stroke : coords) :
  (1 <= factor)%Z -> stroke <> [] -> exists stroke', stroke_image factor stroke stroke'.
Proof.
  intros Hfactor Hne. unfold stroke_image, interpolate_stroke.
  destruct (Nat.ltb_spec 3 (length stroke)) as [Hlong|Hshort].
  - destruct (resample_ok factor stroke Hfactor Hlong) as (xy & Hxy & Hlen).
    rewrite Hxy. cbn [rbind].
    destruct (length xy) as [|m] eqn:Hm; [nia|].
    destruct (close_stroke xy m Hm) as (stroke' & Hs & Hl & _ & _ & H2).
    rewrite Hm in Hs. exists stroke'. split; [exact Hs|]. split; [|split].
    + rewrite Hl. cbn. rewrite Nat.sub_0_r. exact H2.
    + intros _. rewrite Hl. exact Hlen.
    + intros Hle. lia.
  - cbn [rbind].
    destruct stroke as [|r0 rest] eqn:Hstroke; [contradiction|]. rewrite <- Hstroke in *.
    assert (Hm : length (map (fun r => (col0 r, col1 r)) stroke) = S (length rest)).
    { rewrite length_map, Hstroke. reflexivity. }
    destruct (close_stroke _ _ Hm) as (stroke' & Hs & Hl & H0 & H1 & H2).
    rewrite List.map_map in H0, H1. cbn in H0, H1.
    exists stroke'. split; [exact Hs|]. split; [|split].
    + rewrite Hl. cbn. rewrite Nat.sub_0_r. exact H2.
    + intros Hlong. lia.
    + intros _. split; [exact H0|]. split; [exact H1|].
      intros Heos. apply rows_of_columns; [exact H0|exact H1|].
      rewrite H2, Heos, Hstroke. cbn. rewrite Nat.sub_0_r. reflexivity.
Qed.

Lemma interpolate_loop_ok (factor : Z) (strokes : list coords) :
  (1 <= factor)%Z ->
  exists new_coords,
    interpolate_loop factor strokes = Ok new_coords /\
    Forall2 (stroke_image factor) (List.filter nonempty strokes) new_coords.
Proof.
  intros Hfactor.
  induction strokes as [|stroke strokes (new_coords & Hloop & Hall)]; cbn.
  - exists []. split; [reflexivity|constructor].
  - unfold nonempty at 1. destruct stroke as [|r0 rest] eqn:Hstroke; cbn.
    + exists new_coords. split; assumption.
    + destruct (interpolate_stroke_ok factor (r0 :: rest) Hfactor) as (stroke' & Himg);
        [discriminate|].
      exists (stroke' :: new_coords). rewrite (proj1 Himg), Hloop. cbn.
      split; [reflexivity|]. constructor; assumption.
Qed.

(** C7, amended.  For every non-empty coordinate sequence and every
    integer factor [k >= 1], [interpolate] returns the images of the
    strokes of non-zero length, in order: a stroke of length [L > 3]
    becomes exactly [k * L] points, a stroke of length [L <= 3] keeps its
    x and y columns, and in both cases the pen-lift column is rebuilt as
    all zero except the final point, which is 1 -- so a stroke of length
    [L <= 3] that already ends in its only pen-lift is unchanged. *)
Theorem interpolate_resamples_strokes (c : coords) (factor : Z) :
  (1 <= factor)%Z -> c <> [] ->
  exists new_coords,
    interpolate c factor = Ok (concat new_coords) /\
    Forall2 (stroke_image factor) (List.filter nonempty (split_strokes c)) new_coords.
Proof.
  intros Hfactor Hne.
  destruct (interpolate_loop_ok factor (split_strokes c) Hfactor) as (new_coords & Hloop & Hall).
  exists new_coords. split; [|exact Hall].
  unfold interpolate. rewrite Hloop. cbn.
  destruct new_coords as [|s ss]; [|reflexivity].
  apply Forall2_nil_inv_r in Hall.
  pose proof (concat_filter_nonempty (split_strokes c)) as Hcat.
  rewrite Hall, concat_split_strokes in Hcat. cbn in Hcat. congruence.
Qed.

End WithSignal.

Import Fixtures.

(** The amended claim on two strokes, of four and of two points, with
    factor 2. *)
Lemma interpolate_resamples_strokes_witness :
  exists new_coords,
    interpolate two_strokes 2 = Ok (concat new_coords) /\
    Forall2 (stroke_image 2) (List.filter nonempty (split_strokes two_strokes)) new_coords.
Proof.
  apply (interpolate_resamples_strokes two_strokes 2); [lia|discriminate].
Defined.

(** C7, refuted as stated.  With factor 0 a stroke of four points is not
    mapped to a stroke at all: [interpolate] raises [IndexError] when it
    sets the last pen-lift of the empty resampled stroke.  And a final
    stroke of one point that carries no pen-lift is not passed through
    unchanged: its pen-lift becomes 1. *)
Lemma interpolate_factor_zero_raises :
  interpolate four_points 0 = Raise IndexError /\
  interpolate [mk_row 1 2 0] 2 = Ok [mk_row 1 2 1].
Proof. split; vm_compute; reflexivity. Qed.

End InterpolateProps.

(** ** [add_messiness] *)

Module MessinessProps.
Import Np Drawing NpProps.

(** Postconditions of state-passing computations. *)
Definition post {S A} (m : State S A) (P : A -> Prop) : Prop := forall s, P (m s).1.

Lemma post_ret {S A} (a : A) (P : A -> Prop) : P a -> post (ret (S := S) a) P.
Proof. intros Ha s. exact Ha. Qed.

Lemma post_bind {S A B} (m : State S A) (k : A -> State S B) (P : A -> Prop) (Q : B -> Prop) :
  post m P -> (forall a, P a -> post (k a) Q) -> post (bind m k) Q.
Proof.
  intros Hm Hk s. unfold bind. specialize (Hm s).
  destruct (m s) as [a s']. apply Hk, Hm.
Qed.

Lemma post_any {S A} (m : State S A) : post m (fun _ => True).
Proof. intros s. exact I. Qed.

(** Steps over the scalar draws at the head of a computation. *)
Ltac step_draws :=
  repeat (cbv zeta;
          lazymatch goal with
          | |- post (bind (uniform _ _) _) _ => idtac
          | |- post (bind (normal _ _) _) _ => idtac
          end;
          apply post_bind with (P := fun _ => True); [apply post_any|intros ? _]).

(** Adding the number zero returns the very same rational. *)
Lemma Qplus_0_r_eq (q : Q) : q + 0 = q.
Proof. destruct q as [n d]. unfold Qplus. cbn. f_equal; lia. Qed.

Lemma map_col2_map (f : row -> row) (s : coords) :
  (forall r, col2 (f r) = col2 r) -> map col2 (map f s) = map col2 s.
Proof. intros Hf. rewrite List.map_map. apply List.map_ext. exact Hf. Qed.

Lemma eos_length (a b : coords) : map col2 a = map col2 b -> length a = length b.
Proof. intros H. rewrite <- (length_map col2 a), H. apply length_map. Qed.

Lemma set_slice_eos (s e : nat) (new c : coords) :
  (s <= e)%nat -> map col2 new = map col2 (slice s e c) ->
  map col2 (set_slice s e new c) = map col2 c.
Proof.
  intros Hle Hnew. unfold set_slice. rewrite !map_app, Hnew, <- !map_app.
  rewrite slice_then_drop by exact Hle. rewrite take_drop. reflexivity.
Qed.

Lemma shift_from_eos (start : nat) (total_spacing : Q) (c : coords) :
  map col2 (shift_from start total_spacing c) = map col2 c.
Proof.
  unfold shift_from. rewrite map_app, map_col2_map, <- map_app, take_drop; [reflexivity|].
  intros r. apply Qplus_0_r_eq.
Qed.

Section WithRandom.
Context {G : Type} {random : Random G} {trig : Trig}.

Lemma lean_eos (total_lean : Q) (s : coords) : map col2 (lean total_lean s) = map col2 s.
Proof. apply map_col2_map. reflexivity. Qed.

Lemma shift_y_eos (d : Q) (s : coords) : map col2 (shift_y d s) = map col2 s.
Proof. apply map_col2_map. reflexivity. Qed.

Lemma scale_y_eos (v : Q) (s : coords) : map col2 (scale_y v s) = map col2 s.
Proof. apply map_col2_map. reflexivity. Qed.

Lemma scale_x_eos (v : Q) (s : coords) : map col2 (scale_x v s) = map col2 s.
Proof. apply map_col2_map. reflexivity. Qed.

(** [np.random.normal(loc, scale, (n, 2))] has [n] rows. *)
Lemma normal_rows_length (loc scale : Q) (n : nat) :
  post (normal_rows loc scale n) (fun noise => length noise = n).
Proof.
  induction n as [|n IH]; [apply post_ret; reflexivity|].
  cbn [normal_rows]. step_draws.
  apply post_bind with (P := fun noise => length noise = n); [exact IH|].
  intros rest Hrest. apply post_ret. cbn. f_equal. exact Hrest.
Qed.

Lemma add_pressure_eos (noise : list (Q * Q)) (s : coords) :
  length noise = length s -> map col2 (add_pressure noise s) = map col2 s.
Proof.
  unfold add_pressure. revert noise.
  induction s as [|r s IH]; intros [|e noise] Hlen; try discriminate; [reflexivity|].
  cbn. f_equal. apply IH. cbn in Hlen. lia.
Qed.

(** The five per-stroke steps leave the pen-lift column of the stroke as
    it was. *)
Lemma messy_stroke_eos (normal_factor rush_factor : Q) (s : coords) :
  post (messy_stroke normal_factor rush_factor s) (fun s' => map col2 s' = map col2 s).
Proof.
  unfold messy_stroke. step_draws.
  match goal with |- context [scale_x ?v ?t] => set (s4 := scale_x v t) end.
  assert (H4 : map col2 s4 = map col2 s).
  { subst s4. rewrite scale_x_eos, scale_y_eos, shift_y_eos.
    destruct (Qlt_b _ _); [apply lean_eos|reflexivity]. }
  destruct (3 <? length s)%nat.
  - apply post_bind with (P := fun noise => length noise = length s);
      [apply normal_rows_length|].
    intros noise Hnoise. apply post_ret.
    rewrite add_pressure_eos; [exact H4|].
    rewrite Hnoise. symmetry. apply eos_length, H4.
  - apply post_ret. exact H4.
Qed.

Lemma stroke_loop_eos (normal_factor rush_factor : Q) (bounds : list (nat * nat)) :
  Forall (fun b : nat * nat => (b.1 <= b.2)%nat) bounds ->
  forall c, post (stroke_loop normal_factor rush_factor bounds c)
                 (fun c' => map col2 c' = map col2 c).
Proof.
  induction 1 as [|[start end_] bounds Hle _ IH]; intros c; [apply post_ret; reflexivity|].
  cbn [stroke_loop]. cbv zeta.
  destruct (length (slice start end_ c) <? 2)%nat; [apply IH|].
  apply post_bind with (P := fun s' => map col2 s' = map col2 (slice start end_ c));
    [apply messy_stroke_eos|].
  intros s' Hs' g. rewrite IH. apply set_slice_eos; [exact Hle|exact Hs'].
Qed.

Lemma spacing_loop_eos (normal_factor rush_factor : Q) (starts : list nat) :
  forall c, post (spacing_loop normal_factor rush_factor starts c)
                 (fun c' => map col2 c' = map col2 c).
Proof.
  induction starts as [|start starts IH]; intros c; [apply post_ret; reflexivity|].
  cbn [spacing_loop]. step_draws.
  intros g. rewrite IH. apply shift_from_eos.
Qed.

Lemma global_drift_eos (rush_factor : Q) (c : coords) :
  post (global_drift rush_factor c) (fun c' => map col2 c' = map col2 c).
Proof.
  unfold global_drift.
  destruct (Qlt_b 0 rush_factor && (10 <? length c)%nat); [|apply post_ret; reflexivity].
  destruct (Qlt_b 0 (drift_range c)); [|apply post_ret; reflexivity].
  step_draws. apply post_ret. apply map_col2_map. reflexivity.
Qed.

Lemma add_messiness_eos (c : coords) (level : Q) :
  post (add_messiness c level) (fun c' => map col2 c' = map col2 c).
Proof.
  unfold add_messiness.
  destruct (Qle_bool level 0); [apply post_ret; reflexivity|]. cbv zeta.
  apply post_bind with (P := fun c' => map col2 c' = map col2 c).
  { apply stroke_loop_eos. apply (stroke_bounds_ordered (eos_mask c) 0 0). lia. }
  intros c1 H1.
  apply post_bind with (P := fun c' => map col2 c' = map col2 c).
  { destruct (1 <? _)%nat; [|apply post_ret; exact H1].
    intros g. rewrite spacing_loop_eos. exact H1. }
  intros c2 H2 g. rewrite global_drift_eos. exact H2.
Qed.

(** C1. For every coordinate sequence [c], every level [<= 0] and every
    state [g] of the random generator, [add_messiness] returns [c]
    itself, no field perturbed, and draws nothing from the generator. *)
Theorem add_messiness_nonpositive_level (c : coords) (level : Q) (g : G) :
  level <= 0 -> add_messiness c level g = (c, g).
Proof.
  intros Hlevel. unfold add_messiness.
  apply Qle_bool_iff in Hlevel. rewrite Hlevel. reflexivity.
Qed.

(** C2. For every coordinate sequence [c], every level (in particular
    every level of [[0, 1.5]]) and every state of the random generator,
    the output of [add_messiness] has as many rows as [c] (each of the
    three columns [row] has) and its pen-lift column is, element by
    element, the pen-lift column of [c]. *)
Theorem add_messiness_preserves_shape_and_eos (c : coords) (level : Q) (g : G) :
  length (add_messiness c level g).1 = length c /\
  map col2 (add_messiness c level g).1 = map col2 c.
Proof.
  pose proof (add_messiness_eos c level g) as Heos.
  split; [apply eos_length, Heos|exact Heos].
Qed.

(** Step 7 is the last thing [add_messiness] does when the level is
    positive; its rush factor is [level - 1] above level 1 and 0 below. *)
Lemma add_messiness_ends_with_drift (c : coords) (level : Q) (g : G) :
  ~ level <= 0 ->
  exists c6 g6,
    add_messiness c level g =
    global_drift (if Qle_bool level 1 then 0 else level - 1) c6 g6.
Proof.
  intros Hpos. unfold add_messiness.
  destruct (Qle_bool level 0) eqn:E; [apply Qle_bool_iff in E; contradiction|].
  cbv zeta. unfold bind at 1. destruct (stroke_loop _ _ _ _ g) as [c1 g1].
  unfold bind at 1. match goal with |- context [let (_, _) := ?m g1 in _] => destruct (m g1) as [c2 g2] end.
  exists c2, g2. reflexivity.
Qed.

Lemma Qlt_b_true (a b : Q) : Qlt_b a b = true <-> a < b.
Proof.
  unfold Qlt_b. destruct (Qlt_le_dec a b) as [Hlt|Hle]; split; intros H;
    try assumption; try reflexivity; try discriminate.
  exfalso. apply (Qlt_not_le _ _ H), Hle.
Qed.

Lemma drift_applies_iff (rush_factor : Q) (c : coords) :
  drift_applies rush_factor c = true <->
  0 < rush_factor /\ (10 < length c)%nat /\
  0 < col0 (List.last c zero_row) - col0 (hd zero_row c).
Proof.
  unfold drift_applies. rewrite !andb_true_iff, !Qlt_b_true, Nat.ltb_lt.
  unfold drift_range. tauto.
Qed.

(** Progress is 0 at the first row, 1 at the last, and within [[0, 1]]
    for a row whose x lies between those of the first and the last. *)
Lemma drift_progress_bounds (c : coords) (r : row) :
  0 < drift_range c ->
  drift_progress c (hd zero_row c) == 0 /\
  drift_progress c (List.last c zero_row) == 1 /\
  (col0 (hd zero_row c) <= col0 r -> col0 r <= col0 (List.last c zero_row) ->
   0 <= drift_progress c r /\ drift_progress c r <= 1).
Proof.
  intros Hrange. unfold drift_progress. split; [|split].
  - unfold Qdiv. ring.
  - unfold drift_range in *. field. intros H. rewrite H in Hrange.
    apply (Qlt_irrefl 0), Hrange.
  - intros Hlo Hhi. split.
    + apply Qle_shift_div_l; [exact Hrange|]. rewrite Qmult_0_l. lra.
    + apply Qle_shift_div_r; [exact Hrange|]. unfold drift_range. lra.
Qed.

(** C5, amended.  Step 7 of [add_messiness] runs when the rush factor is
    positive, there are more than ten points and the x of the last point
    exceeds the x of the first: one amplitude [A = rush_factor *
    U(-3, 3)] is drawn and every point's y is incremented by
    [A * sin(progress * pi)], with [progress = (x - x_first) /
    (x_last - x_first)]; this progress is 0 at the first point and 1 at
    the last, and within [[0, 1]] for the points whose x lies between the
    two.  Otherwise -- in particular when [x_last - x_first] is zero --
    the step is skipped: the points are returned as they are, nothing is
    drawn and nothing is divided. *)
Theorem global_drift_first_to_last (rush_factor : Q) (c : coords) (g : G) :
  (forall c0 level g0,
      ~ level <= 0 ->
      exists c6 g6,
        add_messiness c0 level g0 =
        global_drift (if Qle_bool level 1 then 0 else level - 1) c6 g6) /\
  (drift_applies rush_factor c = true <->
   0 < rush_factor /\ (10 < length c)%nat /\
   0 < col0 (List.last c zero_row) - col0 (hd zero_row c)) /\
  (drift_applies rush_factor c = true ->
   global_drift rush_factor c g =
     (map (drift_row (rush_factor * (uniform (-3) 3 g).1) c) c, (uniform (-3) 3 g).2) /\
   (forall A r,
       drift_row A c r =
       mk_row (col0 r) (col1 r + A * np_sin (drift_progress c r * np_pi)) (col2 r)) /\
   (forall r,
       drift_progress c r =
       (col0 r - col0 (hd zero_row c)) /
       (col0 (List.last c zero_row) - col0 (hd zero_row c))) /\
   drift_progress c (hd zero_row c) == 0 /\
   drift_progress c (List.last c zero_row) == 1 /\
   (forall r,
       col0 (hd zero_row c) <= col0 r -> col0 r <= col0 (List.last c zero_row) ->
       0 <= drift_progress c r /\ drift_progress c r <= 1)) /\
  (drift_applies rush_factor c = false -> global_drift rush_factor c g = (c, g)).
Proof.
  split; [intros c0 level g0; apply add_messiness_ends_with_drift|].
  split; [apply drift_applies_iff|]. split.
  - intros Happ. pose proof Happ as Hcond. apply drift_applies_iff in Hcond.
    destruct Hcond as (_ & _ & Hrange). change (0 < drift_range c) in Hrange.
    unfold drift_applies in Happ. apply andb_true_iff in Happ as [Hguard Hr].
    split.
    { unfold global_drift. rewrite Hguard, Hr. unfold bind, ret.
      destruct (uniform (-3) 3 g) as [u g']. reflexivity. }
    split; [reflexivity|]. split; [reflexivity|].
    destruct (drift_progress_bounds c zero_row Hrange) as (H0 & H1 & _).
    split; [exact H0|]. split; [exact H1|].
    intros r. apply (drift_progress_bounds c r Hrange).
  - intros Hskip. unfold drift_applies in Hskip. unfold global_drift.
    destruct (Qlt_b 0 rush_factor && (10 <? length c)%nat); [|reflexivity].
    cbn in Hskip. rewrite Hskip. reflexivity.
Qed.

End WithRandom.

Import Fixtures.

(** The claim at level -0.1 on two strokes, with a generator that has two
    samples on its tape. *)
Lemma add_messiness_nonpositive_level_witness :
  add_messiness two_strokes (-1 # 10) [1 # 2; 1 # 3] = (two_strokes, [1 # 2; 1 # 3]).
Proof.
  apply (add_messiness_nonpositive_level two_strokes (-1 # 10) [1 # 2; 1 # 3]).
  discriminate.
Defined.

(** C5, refuted as stated.  On [zigzag] (rush factor 1/2, twelve points)
    the step applies, and the second point, whose x is 0 while the first
    point's is 1, gets progress -1: outside [[0, 1]], and not the
    [(x - xMin) / xRange = 0] of the specification.  On [leftward] the
    x-range is 11, not zero, yet the step is skipped and nothing is drawn
    from the generator. *)
Lemma drift_progress_leaves_unit_interval :
  drift_applies (1 # 2) zigzag = true /\
  zigzag !! 1%nat = Some (mk_row 0 0 0) /\
  drift_progress zigzag (mk_row 0 0 0) == -1 /\
  ~ 0 <= drift_progress zigzag (mk_row 0 0 0) /\
  Spec.progress zigzag (mk_row 0 0 0) == 0 /\
  Spec.x_range leftward == 11 /\
  drift_applies (1 # 2) leftward = false /\
  global_drift (1 # 2) leftward [1 # 2] = (leftward, [1 # 2]).
Proof.
  repeat split; try reflexivity.
  apply Qlt_not_le. reflexivity.
Qed.

End MessinessProps.


(** ** The definitions at work *)

Module Examples.
Import Alphabet Np Drawing Hand Fixtures.

(** [encode_ascii("Hi")] *)
Example encode_Hi : (encode_ascii [72; 105]%N alpha_to_num).1 = [31; 55; 0]%Z.
Proof. vm_compute. reflexivity. Qed.

(** A character outside the alphabet is entered into the table. *)
Example encode_enters_missing_key :
  (encode_ascii [233]%N alpha_to_num).2 !! 233%N = Some 0%Z.
Proof. vm_compute. reflexivity. Qed.

Example write_two_valid_lines :
  write tt [[72; 105]%N; [89; 111]%N] 0 [] =
  (Ok tt, [Generated [[72; 105]%N; [89; 111]%N]; Rendered [[72; 105]%N; [89; 111]%N]]).
Proof. vm_compute. reflexivity. Qed.

(** "Hi" followed by 76 times "a". *)
Example write_rejects_long_second_line :
  write tt [[72; 105]%N; replicate 76 97%N] 0 [] = (Raise (LineTooLong 1 76), []).
Proof. vm_compute. reflexivity. Qed.

(** A line of 76 characters that also holds a character outside the
    alphabet: the length is checked first. *)
Example write_checks_length_first :
  write tt [233%N :: replicate 75 97%N] 0 [] = (Raise (LineTooLong 0 76), []).
Proof. vm_compute. reflexivity. Qed.

Example split_two_strokes :
  split_strokes two_strokes =
  [[mk_row 0 0 0; mk_row 1 2 0; mk_row 2 3 0; mk_row 3 3 1];
   [mk_row 5 0 0; mk_row 6 1 1];
   []].
Proof. reflexivity. Qed.

Example interpolate_two_strokes_rows :
  match interpolate two_strokes 2 with
  | Ok out => (length out, map col2 out)
  | Raise _ => (0%nat, [])
  end = (10%nat, [0; 0; 0; 0; 0; 0; 0; 1; 0; 1]).
Proof. vm_compute. reflexivity. Qed.

Example interpolate_empty_raises : interpolate [] 2 = Raise ValueError.
Proof. reflexivity. Qed.

Example denoise_empty_raises : denoise [] = Raise ValueError.
Proof. reflexivity. Qed.

(** [add_messiness] on the empty array and on a single point: no stroke
    has two rows, nothing is drawn. *)
Example messiness_of_empty : add_messiness [] (1 # 2) [1 # 2] = ([], [1 # 2]).
Proof. reflexivity. Qed.

Example messiness_of_single_point :
  add_messiness [mk_row 0 0 1] (1 # 2) [1 # 2] = ([mk_row 0 0 1], [1 # 2]).
Proof. vm_compute. reflexivity. Qed.

(** The two-point stroke (0, 0), (10, 0) at level 0.5: same shape, same
    pen-lift column, both points moved. *)
Example messiness_of_two_points :
  let out := (add_messiness [mk_row 0 0 0; mk_row 10 0 1] (1 # 2)
                [1 # 2; 1 # 2; 1 # 4; 1 # 2; 3 # 4; 1 # 2]).1 in
  length out = 2%nat /\ map col2 out = [0; 1] /\
  Forall2 (fun r' r => ~ col0 r' == col0 r /\ ~ col1 r' == col1 r)
          out [mk_row 0 0 0; mk_row 10 0 1].
Proof.
  vm_compute. split; [reflexivity|]. split; [reflexivity|].
  repeat constructor; discriminate.
Qed.

Example offsets_of_three_points :
  coords_to_offsets [mk_row 5 7 0; mk_row 6 9 0; mk_row 4 3 1] =
  [mk_row 0 0 1; mk_row (6 - 5) (9 - 7) 0; mk_row (4 - 6) (3 - 9) 1].
Proof. reflexivity. Qed.

End Examples.

(** * More of [drawing.py] and [demo.py]: the embedding *)

(** ** drawing.py: the decoding table *)

Module Tables.
Import Alphabet.

(** [alphabet_ord = list(map(ord, alphabet))]; [alphabet] already holds
    code points. *)
Definition alphabet_ord : list N := alphabet.

(** [num_to_alpha = dict(enumerate(alphabet_ord))] *)
Definition num_to_alpha : gmap Z N :=
  foldl (fun d kv => <[kv.1 := kv.2]> d) ∅ (imap (fun i o => (Z.of_nat i, o)) alphabet_ord).

End Tables.

(** ** numpy.linalg and arctan *)

(** A 2 x 2 matrix, by rows. *)
Abbreviation matrix2 := ((Q * Q) * (Q * Q))%type (only parsing).

Class Linalg : Type := {
  (** [np.linalg.inv] on a 2 x 2 matrix; it raises when it finds the
      matrix singular. *)
  np_linalg_inv : matrix2 -> result matrix2;
  np_arctan : Q -> Q
}.

(** A state-passing computation that raises nothing. *)
Definition io_of_state {S A} (m : State S A) : IO S A :=
  fun s => let (a, s') := m s in (Ok a, s').

(** ** drawing.py: [align], [skew], [stretch], [add_noise] *)

Module Transforms.
Import Np Drawing.

(** [coords[:, :2] *= np.array([x_factor, y_factor])] *)
Definition stretch (c : coords) (x_factor y_factor : Q) : coords :=
  map (fun r => mk_row (col0 r * x_factor) (col1 r * y_factor) (col2 r)) c.

(** [np.dot(u, v)] for two vectors of one length. *)
Definition dot (u v : list Q) : Q := np_sum (zip_with Qmult u v).

(** [np.ones([X.shape[0], 1])] *)
Definition ones (c : coords) : list Q := map (fun _ => 1) c.

(** [X.T.dot(X)] for the design matrix [X = [1, x]]. *)
Definition normal_matrix (c : coords) : matrix2 :=
  let xs := map col0 c in
  ((dot (ones c) (ones c), dot (ones c) xs), (dot xs (ones c), dot xs xs)).

Section WithLinalg.
Context {linalg : Linalg} {trig : Trig}.

(** [offset, slope = np.linalg.inv(X.T.dot(X)).dot(X.T).dot(Y).squeeze()]:
    the inverse is multiplied by [X.T] first, the product by [Y] then. *)
Definition regression (c : coords) : result (Q * Q) :=
  inv <-? np_linalg_inv (normal_matrix c) ;;
  let xs := map col0 c in
  let ys := map col1 c in
  let row0 := zip_with (fun o x => inv.1.1 * o + inv.1.2 * x) (ones c) xs in
  let row1 := zip_with (fun o x => inv.2.1 * o + inv.2.2 * x) (ones c) xs in
  Ok (dot row0 ys, dot row1 ys).

(** [coords[:, :2] = np.dot(coords[:, :2], rotation_matrix) - offset]:
    the offset is subtracted from both columns. *)
Definition align (c : coords) : result coords :=
  fit <-? regression c ;;
  let offset := fit.1 in
  let slope := fit.2 in
  let theta := np_arctan slope in
  let rotation_matrix := ((np_cos theta, - np_sin theta), (np_sin theta, np_cos theta)) in
  Ok (map (fun r =>
             mk_row (col0 r * rotation_matrix.1.1 + col1 r * rotation_matrix.2.1 - offset)
                    (col0 r * rotation_matrix.1.2 + col1 r * rotation_matrix.2.2 - offset)
                    (col2 r))
          c).

(** [A = [[cos(-theta), 0], [sin(-theta), 1]]];
    [coords[:, :2] = np.dot(coords[:, :2], A)] *)
Definition skew (c : coords) (degrees : Q) : coords :=
  let theta := degrees * np_pi / 180 in
  let A := ((np_cos (- theta), 0), (np_sin (- theta), 1)) in
  map (fun r =>
         mk_row (col0 r * A.1.1 + col1 r * A.2.1)
                (col0 r * A.1.2 + col1 r * A.2.2)
                (col2 r))
      c.

End WithLinalg.

Section WithRandom.
Context {G : Type} {random : Random G}.

(** [coords[1:, :2] += np.random.normal(loc=0.0, scale=scale,
    size=coords[1:, :2].shape)]; a negative [scale] makes
    [np.random.normal] raise [ValueError]. *)
Definition add_noise (c : coords) (scale : Q) : IO G coords :=
  if Qlt_b scale 0 then io_lift (Raise ValueError)
  else
    noise <-! io_of_state (normal_rows 0 scale (length (drop 1 c))) ;;
    io_ret (take 1 c ++
            zip_with (fun r e => mk_row (col0 r + e.1) (col1 r + e.2) (col2 r))
                     (drop 1 c) noise).

End WithRandom.

End Transforms.

(** ** demo.py: the text fed to the network in [Hand._sample]

    The branch [styles is None]. *)

Module Feed.
Import Alphabet.

(** [chars[i, :len(encoded)] = encoded] on a row of [chars]: a sequence
    longer than the row cannot be broadcast into it. *)
Definition set_prefix (row encoded : list Z) : result (list Z) :=
  if (length encoded <=? length row)%nat
  then Ok (encoded ++ drop (length encoded) row)
  else Raise ValueError.

(** The loop of the [else] branch of [_sample], taken when [styles] is
    [None]: [for i in range(num_samples)], the rows of [chars] (120 wide)
    and the entries of [chars_len].  The loop of the other branch, which
    loads a style from files and puts its text before the line, is not
    modelled. *)
Fixpoint chars_loop (lines : list pystr) : IO (gmap N Z) (list (list Z * nat)) :=
  match lines with
  | [] => io_ret []
  | line :: rest =>
      encoded <-! io_of_state (encode_ascii line) ;;
      row <-! io_lift (set_prefix (replicate 120 0%Z) encoded) ;;
      rows <-! chars_loop rest ;;
      io_ret ((row, length encoded) :: rows)
  end.

(** [max_tsteps = 40 * max([len(i) for i in lines])] *)
Definition max_tsteps (lines : list pystr) : result nat :=
  match lines with
  | [] => Raise ValueError
  | line :: rest => Ok (40 * foldl Nat.max (length line) (map length rest))%nat
  end.

End Feed.

(** ** demo.py: [Hand._draw] *)

Module Render.
Import Alphabet Np Drawing Transforms.

Inductive letter : Type := MoveTo | LineTo.

(** One piece ['{}{},{} '.format(letter, x, y)] of the path string. *)
Abbreviation command := (letter * Q * Q)%type (only parsing).

(** What is added to the drawing. *)
Inductive element : Type :=
  | Rect (insert size : Q * Q) (fill : list N)
  | Path (d : list (letter * Q * Q)) (color : list N) (width : Z).

Record drawing : Type := mk_drawing { viewbox : Q * Q; elements : list element }.

Definition black : list N := map ord ["b"; "l"; "a"; "c"; "k"]%char.
Definition white : list N := map ord ["w"; "h"; "i"; "t"; "e"]%char.

Definition line_height : Q := 60.
Definition view_width : Q := 1000.

(** [a.min()] and [a.max()]: [ValueError] on an empty array. *)
Definition np_min (a : list Q) : result Q :=
  match a with
  | [] => Raise ValueError
  | v :: a' => Ok (foldl Qmin v a')
  end.

Definition np_max (a : list Q) : result Q :=
  match a with
  | [] => Raise ValueError
  | v :: a' => Ok (foldl Qmax v a')
  end.

(** The entries of [strokes[:, :2]], row by row. *)
Definition xy_entries (s : coords) : list Q := concat (map (fun r => [col0 r; col1 r]) s).

(** The flip, the translation by [strokes[:, :2].min() + initial_coord]
    and the horizontal centering; [initial_coord = [0, initial_y]]. *)
Definition place (initial_y : Q) (s : coords) : result coords :=
  let s := map (fun r => mk_row (col0 r) (col1 r * -1) (col2 r)) s in
  m <-? np_min (xy_entries s) ;;
  let s := map (fun r => mk_row (col0 r - (m + 0)) (col1 r - (m + initial_y)) (col2 r)) s in
  x_max <-? np_max (map col0 s) ;;
  Ok (map (fun r => mk_row (col0 r + (view_width - x_max) / 2) (col1 r) (col2 r)) s).

(** [for x, y, eos in zip( *strokes.T)]: ['M' if prev_eos == 1.0 else 'L'] *)
Fixpoint path_loop (prev_eos : Q) (s : coords) : list (letter * Q * Q) :=
  match s with
  | [] => []
  | r :: s' =>
      ((if Qeq_bool prev_eos 1 then MoveTo else LineTo), col0 r, col1 r)
        :: path_loop (col2 r) s'
  end.

(** [p = "M{},{} ".format(0, 0)] followed by the loop, with
    [prev_eos = 1.0] at its start. *)
Definition path_commands (s : coords) : list (letter * Q * Q) :=
  (MoveTo, 0, 0) :: path_loop 1 s.

(** [zip(strokes, lines, stroke_colors, stroke_widths)] *)
Fixpoint zip4 {A B C D} (a : list A) (b : list B) (c : list C) (d : list D)
  : list (A * B * C * D) :=
  match a, b, c, d with
  | x :: a', y :: b', z :: c', w :: d' => (x, y, z, w) :: zip4 a' b' c' d'
  | _, _, _, _ => []
  end.

(** [x or default] for a list argument that may be [None]. *)
Definition or_default {A} (x : option (list A)) (default : list A) : list A :=
  match x with
  | None | Some [] => default
  | Some l => l
  end.

(** svgwrite checks the value of an attribute when it is set (its
    validation is on by default): which values of [stroke] and of
    [stroke-width] it accepts is the library's. *)
Class Svgwrite : Type := {
  valid_paint : list N -> bool;
  valid_length : Z -> bool
}.

(** [svgwrite.path.Path(p).stroke(color=color, width=width,
    linecap='round').fill("none")]: a colour or a width that svgwrite
    does not accept raises [TypeError]; ['round'] and ["none"] are
    accepted. *)
Definition stroked_path {svg : Svgwrite} (p : list (letter * Q * Q)) (color : list N)
           (width : Z) : result element :=
  if valid_paint color && valid_length width
  then Ok (Path p color width)
  else Raise TypeError.

Section WithLibraries.
Context {G : Type} {random : Random G} {trig : Trig} {signal : Signal} {linalg : Linalg}
        {svg : Svgwrite}.

(** The body of the loop for a line that is not empty, up to the path
    string. *)
Definition render_line (initial_y : Q) (offsets : coords) (messiness : Q)
  : IO G (list (letter * Q * Q)) :=
  let offsets := map (fun r => mk_row (col0 r * 1.5) (col1 r * 1.5) (col2 r)) offsets in
  let strokes := offsets_to_coords offsets in
  strokes <-! io_lift (denoise strokes) ;;
  strokes <-! io_lift (align strokes) ;;
  strokes <-! (if Qlt_b 0 messiness
               then io_of_state (add_messiness strokes messiness)
               else io_ret strokes) ;;
  strokes <-! io_lift (place initial_y strokes) ;;
  io_ret (path_commands strokes).

(** The loop over the lines; [initial_y] is [initial_coord[1]]. *)
Fixpoint draw_loop (initial_y : Q) (rows : list (coords * list N * list N * Z))
         (messiness : Q) : IO G (list element) :=
  match rows with
  | [] => io_ret []
  | (offsets, line, color, width) :: rest =>
      match line with
      | [] => draw_loop (initial_y - line_height) rest messiness
      | _ =>
          p <-! render_line initial_y offsets messiness ;;
          path <-! io_lift (stroked_path p color width) ;;
          paths <-! draw_loop (initial_y - line_height) rest messiness ;;
          io_ret (path :: paths)
      end
  end.

(** [_draw] up to [dwg.save()]: the drawing that is saved.  When a line
    raises, [dwg.save()] is not reached. *)
Definition _draw (strokes : list coords) (lines : list pystr)
           (stroke_colors : option (list (list N))) (stroke_widths : option (list Z))
           (messiness : Q) : IO G drawing :=
  let stroke_colors := or_default stroke_colors (replicate (length lines) black) in
  let stroke_widths := or_default stroke_widths (replicate (length lines) 2%Z) in
  let view_height := line_height * inject_Z (Z.of_nat (length strokes) + 1) in
  let background := Rect (0, 0) (view_width, view_height) white in
  paths <-! draw_loop (- (3 * line_height / 4))
                      (zip4 strokes lines stroke_colors stroke_widths) messiness ;;
  io_ret (mk_drawing (view_width, view_height) (background :: paths)).

End WithLibraries.

End Render.

(** ** drawing.py: [draw], up to the end of its stroke loop *)

Module Plot.
Import Np Drawing Transforms.

(** The calls that [draw] makes to matplotlib in that part. *)
Inductive call : Type :=
  | Subplots
  | AxPlot (xs ys : list Q).

(** What ends [draw] there: the error of a library step, or the
    [TypeError] of a subscript on a [zip] object. *)
Inductive failure : Type :=
  | Library (e : exn)
  | TypeError.

Inductive outcome (A : Type) : Type :=
  | Done (a : A)
  | Failed (f : failure).

Arguments Done {A} a.
Arguments Failed {A} f.

(** [zip( *stroke)]: under Python 3 (which the f-strings of demo.py
    need) an iterator over the columns of [stroke]. *)
Inductive zip_object : Type := Zip (columns : list (list Q)).

(** [coords[i]] on a [zip] object: it has no subscript. *)
Definition zip_getitem (coords : zip_object) (i : nat) : outcome (list Q) :=
  Failed TypeError.

(** [coords = zip( *stroke); ax.plot(coords[0], coords[1], 'k')]: the
    arguments are evaluated before the call. *)
Definition plot_stroke (stroke : list (Q * Q)) (w : list call) : outcome unit * list call :=
  let coords := Zip [map fst stroke; map snd stroke] in
  match zip_getitem coords 0 with
  | Failed f => (Failed f, w)
  | Done xs =>
      match zip_getitem coords 1 with
      | Failed f => (Failed f, w)
      | Done ys => (Done tt, w ++ [AxPlot xs ys])
      end
  end.

(** [for x, y, eos in strokes: stroke.append((x, y)); if eos == 1: ...];
    the result is the list [stroke] after the loop. *)
Fixpoint plot_loop (stroke : list (Q * Q)) (strokes : coords) (w : list call)
  : outcome (list (Q * Q)) * list call :=
  match strokes with
  | [] => (Done stroke, w)
  | r :: rest =>
      let stroke := stroke ++ [(col0 r, col1 r)] in
      if Qeq_bool (col2 r) 1
      then match plot_stroke stroke w with
           | (Done _, w') => plot_loop [] rest w'
           | (Failed f, w') => (Failed f, w')
           end
      else plot_loop stroke rest w
  end.

Section WithLibraries.
Context {trig : Trig} {signal : Signal} {linalg : Linalg}.

(** The strokes that [draw] plots. *)
Definition prepare (offsets : coords) (align_strokes denoise_strokes : bool)
           (interpolation_factor : option Z) : result coords :=
  let strokes := offsets_to_coords offsets in
  strokes <-? (if denoise_strokes then denoise strokes else Ok strokes) ;;
  strokes <-? match interpolation_factor with
              | Some factor => interpolate strokes factor
              | None => Ok strokes
              end ;;
  if align_strokes then align strokes else Ok strokes.

(** [draw] from its first line to the end of [if stroke: ...]. *)
Definition draw (offsets : coords) (align_strokes denoise_strokes : bool)
           (interpolation_factor : option Z) (w : list call) : outcome unit * list call :=
  match prepare offsets align_strokes denoise_strokes interpolation_factor with
  | Raise e => (Failed (Library e), w)
  | Ok strokes =>
      let w := w ++ [Subplots] in
      match plot_loop [] strokes w with
      | (Failed f, w') => (Failed f, w')
      | (Done stroke, w') =>
          match stroke with
          | [] => (Done tt, w')
          | _ => plot_stroke stroke w'
          end
      end
  end.

End WithLibraries.

End Plot.

(** * More properties *)

(** ** Encoding and the decoding table *)

Module TablesProps.
Import Alphabet Tables AlphabetProps.

(** The check that each character of the alphabet is sent to an index
    below 73 which [num_to_alpha] sends back. *)
Definition inverse_at (c : N) : bool :=
  match alpha_to_num !! c with
  | Some i => bool_decide (num_to_alpha !! i = Some c) && (0 <=? i)%Z && (i <? 73)%Z
  | None => false
  end.

Lemma alphabet_inverse_at : forallb inverse_at alphabet = true.
Proof. vm_compute. reflexivity. Qed.

Lemma alphabet_index (c : N) :
  c ∈ alphabet ->
  exists i, alpha_to_num !! c = Some i /\ num_to_alpha !! i = Some c /\ (0 <= i < 73)%Z.
Proof.
  intros Hc. apply list_elem_of_In in Hc.
  pose proof (proj1 (forallb_forall inverse_at alphabet) alphabet_inverse_at c Hc) as H.
  unfold inverse_at in H. destruct (alpha_to_num !! c) as [i|]; [|discriminate].
  apply andb_true_iff in H as [H Hlt]. apply andb_true_iff in H as [Hinv Hge].
  apply bool_decide_eq_true in Hinv.
  exists i. split; [reflexivity|]. split; [exact Hinv|]. lia.
Qed.

(** On a character of the alphabet a lookup returns its index and leaves
    the table alone. *)
Lemma getitem_alphabet (x : N) (d : gmap N Z) :
  table_ok d -> x ∈ alphabet ->
  exists i, getitem x d = (i, d) /\ num_to_alpha !! i = Some x /\ (0 <= i < 73)%Z.
Proof.
  intros Hd Hx. destruct (alphabet_index x Hx) as (i & Hi & Hback & Hrange).
  exists i. split; [|split; assumption].
  unfold getitem. destruct (Hd x) as [Heq|[Hnone _]]; [|congruence].
  rewrite Heq, Hi. reflexivity.
Qed.

Lemma map_getitem_alphabet (s : list N) (d : gmap N Z) :
  table_ok d -> Forall (fun c => c ∈ alphabet) s ->
  exists vs,
    map_getitem s d = (vs, d) /\
    Forall2 (fun c i => num_to_alpha !! i = Some c /\ (0 <= i < 73)%Z) s vs.
Proof.
  intros Hd Hs. induction Hs as [|x s Hx _ (vs & Hmap & Hall)].
  - exists []. split; [reflexivity|constructor].
  - destruct (getitem_alphabet x d Hd Hx) as (i & Hget & Hback & Hrange).
    exists (i :: vs). split.
    + cbn. unfold bind. rewrite Hget, Hmap. reflexivity.
    + constructor; [split; assumption|exact Hall].
Qed.

(** X1. For every string over the alphabet and every state of the table
    reached by lookups, [encode_ascii] leaves the table as it is, returns
    indices between 0 and 72, and looking these indices up in
    [num_to_alpha] gives back the characters of the string followed by
    the character 0. *)
Theorem encode_ascii_decodes (s : list N) (d : gmap N Z) :
  table_ok d -> Forall (fun c => c ∈ alphabet) s ->
  exists out,
    encode_ascii s d = (out, d) /\
    Forall (fun i => (0 <= i < 73)%Z) out /\
    Forall2 (fun c i => num_to_alpha !! i = Some c) (s ++ [0%N]) out.
Proof.
  intros Hd Hs. destruct (map_getitem_alphabet s d Hd Hs) as (vs & Hmap & Hall).
  exists (vs ++ [0%Z]). split; [|split].
  - unfold encode_ascii, bind. rewrite Hmap. reflexivity.
  - apply Forall_app. split; [|repeat constructor; lia].
    clear Hmap Hs. induction Hall as [|c i s vs [_ Hr] _ IH]; constructor; assumption.
  - apply Forall2_app; [|repeat constructor].
    clear Hmap Hs. induction Hall as [|c i s vs [Hb _] _ IH]; constructor; assumption.
Qed.

(** The property at [encode_ascii("Hi")] on the initial table. *)
Lemma encode_ascii_decodes_witness :
  exists out,
    encode_ascii [72; 105]%N alpha_to_num = (out, alpha_to_num) /\
    Forall (fun i => (0 <= i < 73)%Z) out /\
    Forall2 (fun c i => num_to_alpha !! i = Some c) ([72; 105]%N ++ [0%N]) out.
Proof.
  apply (encode_ascii_decodes [72; 105]%N alpha_to_num).
  - apply table_ok_initial.
  - repeat constructor; apply list_elem_of_In; vm_compute; tauto.
Defined.

End TablesProps.

(** ** The text fed to the network *)

Module FeedProps.
Import Alphabet Hand Feed AlphabetProps HandProps TablesProps.

Lemma check_chars_ok_inv (n : nat) (line : list N) :
  check_chars n line = Ok tt -> Forall (fun c => c ∈ alphabet) line.
Proof.
  induction line as [|c line IH]; intros H; [constructor|].
  change (check_chars n (c :: line))
    with (if bool_decide (c ∈ valid_char_set) then check_chars n line
          else Raise (InvalidCharacter c n)) in H.
  destruct (bool_decide (c ∈ valid_char_set)) eqn:Hc; [|discriminate H].
  constructor; [|apply IH, H].
  apply bool_decide_eq_true in Hc. apply valid_char_set_alphabet, Hc.
Qed.

(** A line that passes validation has at most 75 characters, all of the
    alphabet. *)
Lemma validate_line_ok_inv (n : nat) (line : list N) :
  validate_line n line = Ok tt ->
  (length line <= 75)%nat /\ Forall (fun c => c ∈ alphabet) line.
Proof.
  unfold validate_line.
  destruct (Nat.ltb_spec 75 (length line)) as [_|Hle]; [intros H; discriminate H|].
  intros H. split; [exact Hle|]. eapply check_chars_ok_inv, H.
Qed.

Lemma validate_from_ok_inv (n : nat) (lines : list (list N)) :
  validate_from n lines = Ok tt ->
  Forall (fun line => (length line <= 75)%nat /\ Forall (fun c => c ∈ alphabet) line) lines.
Proof.
  revert n. induction lines as [|line lines IH]; intros n H; [constructor|].
  cbn in H. destruct (validate_line n line) as [[]|e] eqn:Hline; [|discriminate].
  constructor; [eapply validate_line_ok_inv, Hline|]. eapply IH, H.
Qed.

(** X2. When [styles] is [None] and the lines pass the validation of
    [Hand.write], the loop of [_sample] that fills [chars] (the [else]
    branch) cannot fail: every encoded line (at most 76 indices) fits its
    120-wide row of [chars], the row holds the encoded line followed by
    zeros, [chars_len] holds the line's length plus one, and the encoding
    table is left as it is.  Nothing is said of the branch with styles. *)
Theorem validated_lines_fit_chars (lines : list (list N)) (d : gmap N Z) :
  table_ok d -> validate lines = Ok tt ->
  exists rows,
    chars_loop lines d = (Ok rows, d) /\
    Forall2 (fun line row =>
               exists encoded,
                 encode_ascii line d = (encoded, d) /\
                 row.1 = encoded ++ replicate (120 - length encoded) 0%Z /\
                 length row.1 = 120%nat /\
                 row.2 = S (length line) /\ (row.2 <= 76)%nat)
            lines rows.
Proof.
  intros Hd Hvalid. apply validate_from_ok_inv in Hvalid.
  induction Hvalid as [|line lines [Hlen Hchars] _ (rows & Hloop & Hall)].
  - exists []. split; [reflexivity|constructor].
  - destruct (encode_ascii_decodes line d Hd Hchars) as (encoded & Henc & _ & Hdec).
    assert (Hn : length encoded = S (length line)).
    { apply Forall2_length in Hdec. rewrite length_app in Hdec. cbn in Hdec. lia. }
    eexists. split.
    + cbn [chars_loop]. unfold io_bind at 1, io_of_state. rewrite Henc.
      unfold io_bind at 1, io_lift, set_prefix. rewrite length_replicate.
      destruct (Nat.leb_spec (length encoded) 120) as [_|Hbig]; [|lia].
      unfold io_bind. rewrite Hloop. reflexivity.
    + constructor; [|exact Hall]. exists encoded. cbn [fst snd].
      split; [exact Henc|]. rewrite drop_replicate. split; [reflexivity|].
      rewrite length_app, length_replicate. lia.
Qed.

(** The property on the lines "Hi" and "". *)
Lemma validated_lines_fit_chars_witness :
  exists rows,
    chars_loop [[72; 105]%N; []] alpha_to_num = (Ok rows, alpha_to_num) /\
    Forall2 (fun line row =>
               exists encoded,
                 encode_ascii line alpha_to_num = (encoded, alpha_to_num) /\
                 row.1 = encoded ++ replicate (120 - length encoded) 0%Z /\
                 length row.1 = 120%nat /\
                 row.2 = S (length line) /\ (row.2 <= 76)%nat)
            [[72; 105]%N; []] rows.
Proof.
  apply (validated_lines_fit_chars [[72; 105]%N; []] alpha_to_num).
  - apply table_ok_initial.
  - vm_compute. reflexivity.
Defined.

End FeedProps.

(** ** Offsets, coordinates and back, in binary64 *)

Module OffsetInverseProps.
Import Binary64 RoundingProps.
#[local] Open Scope float_scope.
#[local] Set Warnings "-inexact-float".

(** Offsets whose x are 0, 0.1 and 0.2. *)
Definition offsets_example : coords := [mk_row 0 0 1; mk_row 0.1 0 0; mk_row 0.2 0 1].

(** X3. Converting offsets to coordinates and back returns as many rows
    as it was given, and one row for an empty input.  The first row is
    the sentinel (0, 0, 1), whatever the first offset was; every later
    row keeps its pen-lift flag and holds the difference of the
    coordinates of its row and of the row before.  In binary64 that
    difference need not be the offset: for the x offsets 0, 0.1, 0.2 the
    third row comes back as [(0.1 + 0.2) - 0.1 = 0.20000000000000004]. *)
Theorem coords_roundtrip_keeps_pen_lifts (offsets : coords) :
  length (coords_to_offsets (offsets_to_coords offsets)) = Nat.max 1 (length offsets) /\
  coords_to_offsets (offsets_to_coords offsets) !! 0%nat = Some (mk_row 0 0 1) /\
  (forall i r,
      offsets !! S i = Some r ->
      exists p q,
        offsets_to_coords offsets !! i = Some p /\
        offsets_to_coords offsets !! S i = Some q /\
        col2 q = col2 r /\
        coords_to_offsets (offsets_to_coords offsets) !! S i
        = Some (mk_row (col0 q - col0 p) (col1 q - col1 p) (col2 r))) /\
  (exists r r',
      offsets_example !! 2%nat = Some r /\
      coords_to_offsets (offsets_to_coords offsets_example) !! 2%nat = Some r' /\
      (col0 r' =? col0 r) = false /\
      (col0 r' =? 0.20000000000000004) = true).
Proof.
  split; [|split; [reflexivity|split]].
  - destruct offsets as [|o0 rest]; [reflexivity|].
    unfold offsets_to_coords. cbn [map np_cumsum zip_with fst snd].
    rewrite coords_to_offsets_cons. cbn [length]. f_equal.
    rewrite deltas_length, length_zip_with, cumsum_length, length_map. lia.
  - intros i r Hi. destruct offsets as [|o0 rest]; [discriminate|]. cbn in Hi.
    unfold offsets_to_coords. cbn [map np_cumsum zip_with fst snd].
    rewrite coords_to_offsets_cons.
    set (C0 := mk_row (col0 o0) (col1 o0) (col2 o0)).
    set (Crest := zip_with _ (cumsum_from _ _) rest).
    assert (Hq : Crest !! i
                 = Some (mk_row (foldl PrimFloat.add (col0 o0) (take (S i) (map col0 rest)))
                                (foldl PrimFloat.add (col1 o0) (take (S i) (map col1 rest)))
                                (col2 r))).
    { subst Crest. apply (cumsum_rows rest (col0 o0, col1 o0) i r Hi). }
    destruct (deltas_lookup Crest C0 i _ Hq) as (p & Hp & Hd).
    eexists p, _. split; [exact Hp|]. split; [exact Hq|]. split; [reflexivity|].
    change ((?x :: ?l) !! S i) with (l !! i). rewrite Hd. reflexivity.
  - eexists _, _. repeat split; vm_compute; reflexivity.
Qed.

End OffsetInverseProps.

(** ** [stretch] and [skew] *)

Module TransformProps.
Import Np Drawing Transforms NpProps MessinessProps.

(** Rows that hold the same numbers and the same pen-lift flag. *)
Definition same_row (r r' : row) : Prop :=
  col0 r == col0 r' /\ col1 r == col1 r' /\ col2 r = col2 r'.

(** An exact inverse for the examples: the adjugate over the determinant,
    an error when the determinant is zero. *)
Definition exact_inv (M : matrix2) : result matrix2 :=
  let det := M.1.1 * M.2.2 - M.1.2 * M.2.1 in
  if Qeq_bool det 0 then Raise ValueError
  else Ok ((M.2.2 / det, - M.1.2 / det), (- M.2.1 / det, M.1.1 / det)).

Definition arctan_poly (t : Q) : Q := t - t * t * t / 3.

#[export] Instance exact_linalg : Linalg :=
  {| np_linalg_inv := exact_inv; np_arctan := arctan_poly |}.

Lemma Forall2_map_same (f g : row -> row) (c : coords) :
  (forall r, same_row (f r) (g r)) -> Forall2 same_row (map f c) (map g c).
Proof. intros H. induction c as [|r c IH]; constructor; [apply H|exact IH]. Qed.

(** X4. [stretch] never touches the pen-lift column, and the factors
    (1, 1) give back the same numbers.  Along each axis a factor that is
    not negative keeps the order of any two points, and a factor that is
    not positive reverses it. *)
Theorem stretch_keeps_order (c : coords) (x_factor y_factor : Q) :
  map col2 (stretch c x_factor y_factor) = map col2 c /\
  Forall2 same_row (stretch c 1 1) c /\
  forall i j r1 r2,
    c !! i = Some r1 -> c !! j = Some r2 ->
    exists r1' r2',
      stretch c x_factor y_factor !! i = Some r1' /\
      stretch c x_factor y_factor !! j = Some r2' /\
      (0 <= x_factor -> col0 r1 <= col0 r2 -> col0 r1' <= col0 r2') /\
      (x_factor <= 0 -> col0 r1 <= col0 r2 -> col0 r2' <= col0 r1') /\
      (0 <= y_factor -> col1 r1 <= col1 r2 -> col1 r1' <= col1 r2') /\
      (y_factor <= 0 -> col1 r1 <= col1 r2 -> col1 r2' <= col1 r1').
Proof.
  split; [|split].
  - unfold stretch. apply map_col2_map. reflexivity.
  - unfold stretch. rewrite <- (List.map_id c) at 2. apply Forall2_map_same.
    intros r. repeat split; cbn; ring.
  - intros i j r1 r2 H1 H2. unfold stretch.
    change (map ?f c) with (f <$> c). rewrite !list_lookup_fmap, H1, H2.
    eexists _, _. split; [reflexivity|]. split; [reflexivity|].
    cbn [col0 col1]. repeat split; intros Hf Hle; nra.
Qed.

Section WithLibraries.
Context {linalg : Linalg} {trig : Trig}.

(** X5. [skew] is a horizontal shear: no point changes its y or its
    pen-lift flag, and two points of equal y keep their horizontal order
    when [cos(-theta)] is not negative. *)
Theorem skew_is_horizontal_shear (c : coords) (degrees : Q) :
  Forall2 (fun r r' => col1 r' == col1 r /\ col2 r' = col2 r) c (skew c degrees) /\
  forall i j r1 r2 r1' r2',
    c !! i = Some r1 -> c !! j = Some r2 ->
    skew c degrees !! i = Some r1' -> skew c degrees !! j = Some r2' ->
    col1 r1 == col1 r2 ->
    0 <= np_cos (- (degrees * np_pi / 180)) ->
    col0 r1 <= col0 r2 -> col0 r1' <= col0 r2'.
Proof.
  split.
  - unfold skew. cbv zeta. induction c as [|r c IH]; constructor; [|exact IH].
    cbn. split; [ring|reflexivity].
  - intros i j r1 r2 r1' r2' H1 H2 H1' H2' Hy Hcos Hle.
    unfold skew in H1', H2'. cbv zeta in H1', H2'.
    change (map ?f c) with (f <$> c) in H1', H2'.
    rewrite list_lookup_fmap, H1 in H1'. rewrite list_lookup_fmap, H2 in H2'.
    injection H1' as <-. injection H2' as <-. cbn [col0 col1 fst snd].
    set (C := np_cos _) in *. set (S := np_sin _). rewrite Hy. nra.
Qed.

End WithLibraries.

End TransformProps.

(** ** More on [add_noise] and [add_messiness] *)

Module MessinessMoreProps.
Import Np Drawing Transforms NpProps MessinessProps.

Lemma where_from_no_pen_lift (c : coords) (i : nat) :
  Forall (fun r => ~ col2 r == 1) c -> where_from i (eos_mask c) = [].
Proof.
  intros Hc. revert i. induction Hc as [|r c Hr _ IH]; intros i; [reflexivity|].
  cbn. destruct (Qeq_bool (col2 r) 1) eqn:E; [|apply IH].
  apply Qeq_bool_iff in E. contradiction.
Qed.

(** Row [r] after [coords[start:] += [t, 0, 0]], when it stands at index
    [i]. *)
Definition shift_row (i start : nat) (t : Q) (r : row) : row :=
  if (start <=? i)%nat then mk_row (col0 r + t) (col1 r) (col2 r) else r.

(** Row [r] at index [i] after the shifts [(start, t)], applied one after
    the other. *)
Definition shifted_row (i : nat) (shifts : list (nat * Q)) (r : row) : row :=
  foldl (fun r p => shift_row i p.1 p.2 r) r shifts.

(** One shift of the spacing loop, row by row. *)
Lemma shift_from_lookup (start : nat) (t : Q) (c : coords) (i : nat) :
  shift_from start t c !! i = shift_row i start t <$> c !! i.
Proof.
  unfold shift_from, shift_row.
  destruct (Nat.lt_ge_cases i (length c)) as [Hlt|Hge].
  - destruct (Nat.leb_spec start i) as [Hle|Hgt].
    + rewrite lookup_app_r by (rewrite length_take; lia).
      rewrite length_take, Nat.min_l by lia.
      change (map ?f (drop start c)) with (f <$> drop start c).
      rewrite list_lookup_fmap, lookup_drop.
      replace (start + (i - start))%nat with i by lia.
      destruct (c !! i) as [r|]; [|reflexivity]. cbn.
      rewrite !Qplus_0_r_eq. reflexivity.
    + rewrite lookup_app_l by (rewrite length_take; lia).
      rewrite lookup_take_lt by lia. destruct (c !! i); reflexivity.
  - rewrite (lookup_ge_None_2 c i) by lia. apply lookup_ge_None_2.
    rewrite length_app, length_take, length_map, length_drop. lia.
Qed.

Section WithRandom.
Context {G : Type} {random : Random G} {trig : Trig}.

(** The values of [total_spacing] of the spacing loop in the order of
    its turns: each turn draws [uniform(-2, 4)] and then
    [uniform(-4, 8)]. *)
Fixpoint spacing_totals (normal_factor rush_factor : Q) (turns : nat) : State G (list Q) :=
  match turns with
  | O => ret []
  | S turns' =>
      u <- uniform (-2) 4 ;;
      let base_spacing := normal_factor * u in
      u <- uniform (-4) 8 ;;
      let rush_spacing := rush_factor * u in
      totals <- spacing_totals normal_factor rush_factor turns' ;;
      ret ((base_spacing + rush_spacing) :: totals)
  end.

(** X8. [add_noise] with a non-negative scale returns an array of the
    same shape and pen-lift column whose first row is the first row of
    the input: the first point is never moved.  With a negative scale it
    raises [ValueError] and draws nothing. *)
Theorem add_noise_keeps_first_row (c : coords) (scale : Q) (g : G) :
  (0 <= scale ->
   exists out g',
     add_noise c scale g = (Ok out, g') /\
     length out = length c /\ map col2 out = map col2 c /\ take 1 out = take 1 c) /\
  (scale < 0 -> add_noise c scale g = (Raise ValueError, g)).
Proof.
  unfold add_noise, Qlt_b. split.
  - intros Hscale. destruct (Qlt_le_dec scale 0) as [Hneg|_].
    { exfalso. apply (Qlt_not_le _ _ Hneg), Hscale. }
    unfold io_bind, io_of_state, io_ret.
    pose proof (normal_rows_length 0 scale (length (drop 1 c)) g) as Hlen.
    destruct (normal_rows 0 scale (length (drop 1 c)) g) as [noise g']. cbn [fst] in Hlen.
    eexists _, g'. split; [reflexivity|].
    assert (Heos : forall (s : coords) (n : list (Q * Q)),
               length n = length s ->
               map col2 (zip_with (fun r e => mk_row (col0 r + e.1) (col1 r + e.2) (col2 r)) s n)
               = map col2 s).
    { induction s as [|r s IH]; intros [|e n] Hn; try discriminate; [reflexivity|].
      cbn. f_equal. apply IH. cbn in Hn. lia. }
    assert (Hall : map col2 (take 1 c ++
                     zip_with (fun r e => mk_row (col0 r + e.1) (col1 r + e.2) (col2 r))
                       (drop 1 c) noise) = map col2 c).
    { rewrite map_app, Heos by exact Hlen. rewrite <- map_app, take_drop. reflexivity. }
    split; [apply eos_length, Hall|]. split; [exact Hall|].
    destruct c as [|r c]; [reflexivity|]. reflexivity.
  - intros Hneg. destruct (Qlt_le_dec scale 0) as [_|Hle]; [reflexivity|].
    exfalso. apply (Qlt_not_le _ _ Hneg), Hle.
Qed.

(** X10. A sequence without any pen-lift has no stroke for
    [add_messiness] to work on: at every level up to 1, and at every
    level when there are at most ten points, the sequence is returned as
    it is and nothing is drawn from the generator. *)
Theorem add_messiness_without_pen_lift (c : coords) (level : Q) (g : G) :
  Forall (fun r => ~ col2 r == 1) c ->
  level <= 1 \/ (length c <= 10)%nat ->
  add_messiness c level g = (c, g).
Proof.
  intros Hc Hcase. unfold add_messiness.
  destruct (Qle_bool level 0); [reflexivity|]. cbv zeta.
  unfold np_where. rewrite (where_from_no_pen_lift c 0 Hc). cbn [removelast map zip_with length].
  cbn [stroke_loop Nat.ltb Nat.leb]. unfold bind, ret, global_drift.
  destruct Hcase as [Hlevel|Hshort].
  - apply Qle_bool_iff in Hlevel. rewrite Hlevel. reflexivity.
  - destruct (Nat.ltb_spec 10 (length c)) as [Hlong|_]; [lia|].
    rewrite andb_false_r. reflexivity.
Qed.

(** X11. The spacing loop draws, turn by turn, one [uniform(-2, 4)] and
    one [uniform(-4, 8)] and adds [normal_factor] times the first plus
    [rush_factor] times the second to the x of every row from the turn's
    stroke start on.  So row [i] ends with the totals of all starts up to
    [i] added to its x one after the other, in the order of the turns;
    its y and pen-lift are as they were, and the generator has made two
    draws per start. *)
Theorem spacing_shifts_accumulate (normal_factor rush_factor : Q) (starts : list nat)
        (c : coords) (g : G) :
  spacing_loop normal_factor rush_factor starts c g =
  (imap (fun i r =>
           shifted_row i
             (zip starts (spacing_totals normal_factor rush_factor (length starts) g).1) r)
        c,
   (spacing_totals normal_factor rush_factor (length starts) g).2) /\
  forall i shifts r,
    col0 (shifted_row i shifts r)
    = foldl (fun x p => if (p.1 <=? i)%nat then x + p.2 else x) (col0 r) shifts /\
    col1 (shifted_row i shifts r) = col1 r /\
    col2 (shifted_row i shifts r) = col2 r.
Proof.
  split.
  - revert c g. induction starts as [|start starts IH]; intros c g.
    + cbn. unfold ret. f_equal. apply list_eq. intros i.
      rewrite list_lookup_imap. destruct (c !! i); reflexivity.
    + cbn [spacing_loop spacing_totals length]. unfold bind.
      destruct (uniform (-2) 4 g) as [u1 g1]. destruct (uniform (-4) 8 g1) as [u2 g2].
      cbv zeta. rewrite IH.
      destruct (spacing_totals normal_factor rush_factor (length starts) g2) as [totals g3].
      unfold ret. cbn [fst snd]. f_equal. apply list_eq. intros i.
      rewrite !list_lookup_imap, shift_from_lookup.
      destruct (c !! i); reflexivity.
  - intros i shifts. unfold shifted_row.
    induction shifts as [|[start t] shifts IH]; intros r; [repeat split|].
    cbn [foldl fst snd]. destruct (IH (shift_row i start t r)) as (H0 & H1 & H2).
    rewrite H0, H1, H2. unfold shift_row. destruct (start <=? i)%nat; repeat split.
Qed.

End WithRandom.

Import Fixtures.

(** Twelve points without pen-lift, at level 1. *)
Lemma add_messiness_without_pen_lift_witness :
  add_messiness (replicate 12 (mk_row 1 2 0)) 1 [1 # 2] = (replicate 12 (mk_row 1 2 0), [1 # 2]).
Proof.
  apply (add_messiness_without_pen_lift (replicate 12 (mk_row 1 2 0)) 1 [1 # 2]).
  - apply Forall_forall. intros r Hr. apply elem_of_replicate in Hr as [-> _].
    discriminate.
  - left. discriminate.
Defined.

End MessinessMoreProps.

(** ** Stroke segmentation, once more *)

Module StrokeProps.
Import Np Drawing NpProps InterpolateProps.

Lemma where_from_succ (mask : list bool) (i : nat) :
  where_from (S i) mask = map S (where_from i mask).
Proof.
  revert i. induction mask as [|b mask IH]; intros i; [reflexivity|].
  cbn. destruct b; cbn; rewrite IH; reflexivity.
Qed.

Lemma split_from_succ {A} (x : A) (a : list A) (indices : list nat) :
  forall prev, split_from (S prev) (map S indices) (x :: a) = split_from prev indices a.
Proof.
  induction indices as [|i rest IH]; intros prev; [reflexivity|].
  cbn [map split_from]. rewrite IH. reflexivity.
Qed.

Lemma split_from_zero_cons {A} (x : A) (a : list A) (indices : list nat) :
  split_from 0 (map S indices) (x :: a) =
  match split_from 0 indices a with
  | hd :: tl => (x :: hd) :: tl
  | [] => [[x]]
  end.
Proof.
  destruct indices as [|i rest]; [reflexivity|].
  cbn [map split_from]. rewrite split_from_succ. unfold slice.
  rewrite !Nat.sub_0_r. reflexivity.
Qed.

(** The index-based segmentation, read row by row: a row with a pen-lift
    closes its stroke, any other row joins the stroke that follows. *)
Lemma split_strokes_cons (r : row) (c : coords) :
  split_strokes (r :: c) =
  if Qeq_bool (col2 r) 1 then [r] :: split_strokes c
  else match split_strokes c with
       | hd :: tl => (r :: hd) :: tl
       | [] => [[r]]
       end.
Proof.
  unfold split_strokes, np_split, np_where. cbn [eos_mask map where_from].
  fold (eos_mask c). rewrite where_from_succ.
  destruct (Qeq_bool (col2 r) 1).
  - cbn [map split_from]. rewrite split_from_succ. reflexivity.
  - apply split_from_zero_cons.
Qed.

(** The first piece of a non-empty array is not empty. *)
Lemma split_strokes_head (r : row) (c : coords) :
  exists hd tl, split_strokes (r :: c) = (r :: hd) :: tl.
Proof.
  rewrite split_strokes_cons. destruct (Qeq_bool (col2 r) 1); [eauto|].
  destruct (split_strokes c); eauto.
Qed.

(** A stroke whose pen-lift column is zeros closed by a 1 is cut off
    whole from whatever follows it. *)
Lemma split_terminated_stroke (m : nat) :
  forall (s rest : coords),
    map col2 s = replicate m 0 ++ [1] ->
    split_strokes (s ++ rest) = s :: split_strokes rest.
Proof.
  induction m as [|m IH]; intros s rest Hs.
  - destruct s as [|r [|r' s]]; try discriminate. cbn in Hs. injection Hs as Hr.
    cbn [app]. rewrite split_strokes_cons, Hr. reflexivity.
  - destruct s as [|r s]; [discriminate|]. cbn in Hs. injection Hs as Hr Hs.
    cbn [app]. rewrite split_strokes_cons, Hr, (IH s rest Hs). reflexivity.
Qed.

Lemma split_terminated_strokes (strokes : list coords) :
  Forall (fun s => map col2 s = replicate (length s - 1) 0 ++ [1]) strokes ->
  split_strokes (concat strokes) = strokes ++ [[]].
Proof.
  induction 1 as [|s strokes Hs _ IH]; [reflexivity|].
  cbn [concat app]. rewrite (split_terminated_stroke _ s (concat strokes) Hs), IH.
  reflexivity.
Qed.

Section WithSignal.
Context {signal : Signal}.

(** X12. For a factor of at least one and a non-empty input, the output
    of [interpolate] is a sequence of terminated strokes: segmenting it
    again gives back exactly the resampled strokes, one for each
    non-empty stroke of the input, followed by the empty piece after the
    final pen-lift. *)
Theorem interpolate_output_is_terminated (c : coords) (factor : Z) :
  (1 <= factor)%Z -> c <> [] ->
  exists new_coords,
    interpolate c factor = Ok (concat new_coords) /\
    length new_coords = length (List.filter nonempty (split_strokes c)) /\
    split_strokes (concat new_coords) = new_coords ++ [[]] /\
    last (map col2 (concat new_coords)) = Some 1.
Proof.
  intros Hfactor Hne.
  destruct (interpolate_loop_ok factor (split_strokes c) Hfactor) as (new_coords & Hloop & Hall).
  assert (Hterm : Forall (fun s => map col2 s = replicate (length s - 1) 0 ++ [1]) new_coords).
  { clear Hloop. induction Hall as [|s s' ss ss' (_ & Hs' & _) _ IH]; constructor; assumption. }
  assert (Hcons : new_coords <> []).
  { intros ->. apply Forall2_nil_inv_r in Hall.
    pose proof (concat_filter_nonempty (split_strokes c)) as Hcat.
    rewrite Hall, concat_split_strokes in Hcat. cbn in Hcat. congruence. }
  exists new_coords. split; [|split; [|split]].
  - unfold interpolate. rewrite Hloop. cbn. destruct new_coords; [contradiction|reflexivity].
  - symmetry. eapply Forall2_length, Hall.
  - apply split_terminated_strokes, Hterm.
  - clear Hall Hloop. induction Hterm as [|s ss Hs Hss IH]; [contradiction|].
    cbn [concat]. rewrite map_app. destruct ss as [|s' ss].
    + cbn [concat map]. rewrite app_nil_r, Hs. apply last_snoc.
    + rewrite last_app. rewrite IH by discriminate. reflexivity.
Qed.

End WithSignal.

Import Fixtures.

(** The property on two strokes with factor 2. *)
Lemma interpolate_output_is_terminated_witness :
  exists new_coords,
    interpolate two_strokes 2 = Ok (concat new_coords) /\
    length new_coords = length (List.filter nonempty (split_strokes two_strokes)) /\
    split_strokes (concat new_coords) = new_coords ++ [[]] /\
    last (map col2 (concat new_coords)) = Some 1.
Proof.
  apply (interpolate_output_is_terminated two_strokes 2); [lia|discriminate].
Defined.

End StrokeProps.

(** ** [Hand._draw]: paths and layout *)

Module RenderProps.
Import Alphabet Np Drawing Transforms Render NpProps MessinessProps StrokeProps.

(** The commands of one stroke: a move to its first point, lines to the
    others. *)
Definition stroke_path (stroke : coords) : list (letter * Q * Q) :=
  match stroke with
  | [] => []
  | r :: rest => (MoveTo, col0 r, col1 r) :: map (fun r => (LineTo, col0 r, col1 r)) rest
  end.

Definition strokes_path (s : coords) : list (letter * Q * Q) :=
  concat (map stroke_path (List.filter nonempty (split_strokes s))).

(** A path with its first letter replaced. *)
Definition relabel (l : letter) (p : list (letter * Q * Q)) : list (letter * Q * Q) :=
  match p with
  | [] => []
  | (_, x, y) :: p' => (l, x, y) :: p'
  end.

(** [initial_coord[1]] when line [j] is reached. *)
Definition cursor_after (j : nat) : Q :=
  Nat.iter j (fun y => y - line_height) (- (3 * line_height / 4)).

Lemma strokes_path_starts_with_move (s : coords) :
  relabel MoveTo (strokes_path s) = strokes_path s.
Proof.
  unfold strokes_path. pose proof (filter_nonempty_all (split_strokes s)) as Hall.
  destruct Hall as [|[|r stroke] strokes Hne _]; [reflexivity|contradiction|reflexivity].
Qed.

Lemma path_loop_strokes (s : coords) :
  forall prev_eos,
    path_loop prev_eos s
    = relabel (if Qeq_bool prev_eos 1 then MoveTo else LineTo) (strokes_path s).
Proof.
  induction s as [|r s IH]; intros prev_eos; [reflexivity|].
  cbn [path_loop]. rewrite IH. unfold strokes_path at 2. rewrite split_strokes_cons.
  destruct (Qeq_bool (col2 r) 1).
  - rewrite strokes_path_starts_with_move. reflexivity.
  - destruct s as [|r' s]; [reflexivity|].
    unfold strokes_path.
    destruct (split_strokes_head r' s) as (hd & tl & ->). reflexivity.
Qed.

(** X13. The path of a line is the initial "M0,0" followed, for each
    stroke of the line in order, by a move to the first point of the
    stroke and lines to its other points: a line is never drawn from the
    end of one stroke to the start of the next. *)
Theorem path_commands_follow_strokes (s : coords) :
  path_commands s =
  (MoveTo, 0, 0) :: concat (map stroke_path (List.filter nonempty (split_strokes s))).
Proof.
  unfold path_commands. rewrite path_loop_strokes.
  change (Qeq_bool 1 1) with true. cbv iota.
  fold (strokes_path s). rewrite strokes_path_starts_with_move. reflexivity.
Qed.

Lemma foldl_Qmin_le_init (a : list Q) : forall v, foldl Qmin v a <= v.
Proof.
  induction a as [|y a IH]; intros v; [apply Qle_refl|].
  cbn. eapply Qle_trans; [apply IH|apply Q.le_min_l].
Qed.

Lemma foldl_Qmax_ge_init (a : list Q) : forall v, v <= foldl Qmax v a.
Proof.
  induction a as [|y a IH]; intros v; [apply Qle_refl|].
  cbn. eapply Qle_trans; [apply Q.le_max_l|apply IH].
Qed.

Lemma np_min_spec (a : list Q) :
  a <> [] -> exists m, np_min a = Ok m /\ forall x, x ∈ a -> m <= x.
Proof.
  destruct a as [|v a]; [contradiction|]. intros _. eexists. split; [reflexivity|].
  revert v. induction a as [|y a IH]; intros v x Hx.
  - apply list_elem_of_singleton in Hx as ->. apply Qle_refl.
  - cbn. apply elem_of_cons in Hx as [->|Hx].
    + eapply Qle_trans; [apply foldl_Qmin_le_init|apply Q.le_min_l].
    + apply elem_of_cons in Hx as [->|Hx].
      * eapply Qle_trans; [apply foldl_Qmin_le_init|apply Q.le_min_r].
      * apply IH. right. exact Hx.
Qed.

Lemma np_max_spec (a : list Q) :
  a <> [] ->
  exists M, np_max a = Ok M /\ (forall x, x ∈ a -> x <= M) /\ exists x, x ∈ a /\ x == M.
Proof.
  destruct a as [|v a]; [contradiction|]. intros _. eexists. split; [reflexivity|].
  revert v. induction a as [|y a IH]; intros v.
  - split.
    + intros x Hx. apply list_elem_of_singleton in Hx as ->. apply Qle_refl.
    + exists v. split; [left|reflexivity].
  - cbn [foldl]. destruct (IH (Qmax v y)) as (Hle & x & Hx & Heq). split.
    + intros z Hz. apply elem_of_cons in Hz as [->|Hz].
      * eapply Qle_trans; [apply Q.le_max_l|apply foldl_Qmax_ge_init].
      * apply elem_of_cons in Hz as [->|Hz].
        -- eapply Qle_trans; [apply Q.le_max_r|apply foldl_Qmax_ge_init].
        -- apply Hle. right. exact Hz.
    + apply elem_of_cons in Hx as [->|Hx].
      * destruct (Q.max_spec_le v y) as [[_ E]|[_ E]].
        -- exists y. split; [right; left|]. rewrite <- Heq, E. reflexivity.
        -- exists v. split; [left|]. rewrite <- Heq, E. reflexivity.
      * exists x. split; [right; right; exact Hx|exact Heq].
Qed.

Lemma xy_entries_rows (s : coords) (r : row) :
  r ∈ s -> col0 r ∈ xy_entries s /\ col1 r ∈ xy_entries s.
Proof.
  intros Hr. unfold xy_entries. induction Hr as [r s|r r' s _ [IH0 IH1]]; cbn.
  - split; [left|right; left].
  - split; right; right; assumption.
Qed.

(** X14. Placing a line with at least one point succeeds: with [m] the
    least entry of the x and the flipped y, and [x_max] the largest x
    after the translation, row by row x becomes
    [x - (m + 0) + (view_width - x_max) / 2], y becomes
    [y * -1 - (m + initial_y)], and the pen-lift stays.  So the placement
    keeps the horizontal order of any two points and reverses their
    vertical order, and every x lies between the centring shift and
    [x_max] plus the shift, which the rightmost point reaches.  Placing
    an empty array raises [ValueError]. *)
Theorem place_flips_and_keeps_order (initial_y : Q) (s : coords) :
  place initial_y [] = Raise ValueError /\
  (s <> [] ->
   exists out m x_max,
     np_min (xy_entries (map (fun r => mk_row (col0 r) (col1 r * -1) (col2 r)) s)) = Ok m /\
     np_max (map (fun r => col0 r - (m + 0)) s) = Ok x_max /\
     place initial_y s = Ok out /\
     out = map (fun r => mk_row (col0 r - (m + 0) + (view_width - x_max) / 2)
                                (col1 r * -1 - (m + initial_y))
                                (col2 r)) s /\
     map col2 out = map col2 s /\
     (forall i j r1 r2 r1' r2',
         s !! i = Some r1 -> s !! j = Some r2 ->
         out !! i = Some r1' -> out !! j = Some r2' ->
         (col0 r1 <= col0 r2 -> col0 r1' <= col0 r2') /\
         (col1 r1 <= col1 r2 -> col1 r2' <= col1 r1')) /\
     (forall r, r ∈ out ->
                (view_width - x_max) / 2 <= col0 r /\
                col0 r <= x_max + (view_width - x_max) / 2) /\
     (exists r, r ∈ out /\ col0 r == x_max + (view_width - x_max) / 2)).
Proof.
  split; [reflexivity|]. intros Hne. unfold place.
  set (s1 := map (fun r => mk_row (col0 r) (col1 r * -1) (col2 r)) s).
  assert (Hne1 : xy_entries s1 <> []) by (subst s1; destruct s; [contradiction|discriminate]).
  destruct (np_min_spec (xy_entries s1) Hne1) as (m & Hm & Hmin).
  rewrite Hm. cbn [rbind].
  set (s2 := map (fun r => mk_row (col0 r - (m + 0)) (col1 r - (m + initial_y)) (col2 r)) s1).
  assert (Hxs : map col0 s2 = map (fun r => col0 r - (m + 0)) s).
  { subst s2 s1. rewrite !List.map_map. reflexivity. }
  assert (Hne2 : map col0 s2 <> []) by (subst s2 s1; destruct s; [contradiction|discriminate]).
  destruct (np_max_spec (map col0 s2) Hne2) as (X & HX & Hmax & xm & Hxm & Hxeq).
  rewrite HX. cbn [rbind].
  assert (Hout : map (fun r => mk_row (col0 r + (view_width - X) / 2) (col1 r) (col2 r)) s2
                 = map (fun r => mk_row (col0 r - (m + 0) + (view_width - X) / 2)
                                        (col1 r * -1 - (m + initial_y))
                                        (col2 r)) s).
  { subst s2 s1. rewrite !List.map_map. reflexivity. }
  rewrite Hout. rewrite Hxs in HX, Hmax, Hxm.
  eexists _, m, X. split; [reflexivity|]. split; [exact HX|]. split; [reflexivity|].
  split; [reflexivity|]. split; [|split; [|split]].
  - apply map_col2_map. reflexivity.
  - intros i j r1 r2 r1' r2' H1 H2 H1' H2'.
    change (map ?f ?l) with (f <$> l) in H1', H2'.
    rewrite list_lookup_fmap, H1 in H1'. rewrite list_lookup_fmap, H2 in H2'.
    injection H1' as <-. injection H2' as <-. cbn [col0 col1]. split; intros Hle; lra.
  - intros r Hr. apply list_elem_of_In, in_map_iff in Hr as (r0 & <- & Hr0).
    apply list_elem_of_In in Hr0. cbn [col0].
    assert (Hr1 : mk_row (col0 r0) (col1 r0 * -1) (col2 r0) ∈ s1).
    { subst s1. apply list_elem_of_In, in_map_iff. exists r0.
      split; [reflexivity|apply list_elem_of_In, Hr0]. }
    pose proof (Hmin _ (proj1 (xy_entries_rows s1 _ Hr1))) as Hlow. cbn [col0] in Hlow.
    assert (Hup : col0 r0 - (m + 0) <= X).
    { apply Hmax. apply list_elem_of_In, in_map_iff. exists r0.
      split; [reflexivity|apply list_elem_of_In, Hr0]. }
    split; lra.
  - apply list_elem_of_In, in_map_iff in Hxm as (r0 & Hr0eq & Hr0).
    eexists. split.
    + apply list_elem_of_In, in_map_iff. exists r0. split; [reflexivity|exact Hr0].
    + cbn [col0]. rewrite Hr0eq, Hxeq. reflexivity.
Qed.

End RenderProps.

(** ** [Hand._draw]: the drawing as a whole *)

Module DrawProps.
Import Alphabet Np Drawing Transforms Render NpProps MessinessProps StrokeProps RenderProps.

(** The lines of the loop that are not empty, each with its index among
    all lines. *)
Fixpoint nonempty_lines_from (k : nat) (rows : list (coords * list N * list N * Z))
  : list (nat * (coords * list N * list N * Z)) :=
  match rows with
  | [] => []
  | (offsets, line, color, width) :: rest =>
      match line with
      | [] => nonempty_lines_from (S k) rest
      | _ => (k, (offsets, line, color, width)) :: nonempty_lines_from (S k) rest
      end
  end.

Lemma cursor_after_closed (j : nat) :
  cursor_after j == - (45) - 60 * inject_Z (Z.of_nat j).
Proof.
  induction j as [|j IH]; [reflexivity|].
  change (cursor_after (S j)) with (cursor_after j - line_height).
  rewrite IH, Nat2Z.inj_succ, <- Z.add_1_r, inject_Z_plus. unfold line_height. ring.
Qed.

Section WithLibraries.
Context {G : Type} {random : Random G} {trig : Trig} {signal : Signal} {linalg : Linalg}
        {svg : Svgwrite}.

(** The path element of line [p.1]: rendered at that line's cursor, with
    that line's colour and width. *)
Definition path_of_line (messiness : Q) (p : nat * (coords * list N * list N * Z))
           (el : element) : Prop :=
  exists path g1 g2,
    render_line (cursor_after p.1) p.2.1.1.1 messiness g1 = (Ok path, g2) /\
    el = Path path p.2.1.2 p.2.2.

Lemma render_line_empty_sample (initial_y messiness : Q) (g : G) :
  render_line initial_y [] messiness g = (Raise ValueError, g).
Proof. reflexivity. Qed.

Lemma render_line_state (initial_y messiness : Q) (offsets : coords) (g : G) :
  messiness <= 0 -> (render_line initial_y offsets messiness g).2 = g.
Proof.
  intros Hm. unfold render_line, io_bind, io_lift, io_ret. cbv zeta.
  destruct (denoise _) as [s1|e]; [|reflexivity].
  destruct (align s1) as [s2|e]; [|reflexivity].
  replace (Qlt_b 0 messiness) with false.
  - destruct (place initial_y s2); reflexivity.
  - symmetry. unfold Qlt_b. destruct (Qlt_le_dec 0 messiness) as [Hlt|_]; [|reflexivity].
    exfalso. apply (Qlt_not_le _ _ Hlt), Hm.
Qed.

(** One turn of the loop on a line that is not empty. *)
Lemma draw_loop_cons (messiness initial_y : Q) (offsets : coords) (ch : N) (line color : list N)
      (width : Z) (rows : list (coords * list N * list N * Z)) (g : G) :
  draw_loop initial_y ((offsets, ch :: line, color, width) :: rows) messiness g =
  match render_line initial_y offsets messiness g with
  | (Ok p, g1) =>
      match stroked_path p color width with
      | Ok path =>
          match draw_loop (initial_y - line_height) rows messiness g1 with
          | (Ok paths, g2) => (Ok (path :: paths), g2)
          | (Raise e, g2) => (Raise e, g2)
          end
      | Raise e => (Raise e, g1)
      end
  | (Raise e, g1) => (Raise e, g1)
  end.
Proof.
  cbn [draw_loop]. unfold io_bind, io_lift, io_ret.
  destruct (render_line initial_y offsets messiness g) as [[p|e] g1]; [|reflexivity].
  destruct (stroked_path p color width); reflexivity.
Qed.

Lemma draw_loop_state (messiness : Q) (rows : list (coords * list N * list N * Z)) :
  messiness <= 0 -> forall initial_y g, (draw_loop initial_y rows messiness g).2 = g.
Proof.
  intros Hm. induction rows as [|[[[offsets line] color] width] rows IH]; intros y g;
    [reflexivity|].
  destruct line as [|ch line]; [apply IH|]. rewrite draw_loop_cons.
  pose proof (render_line_state y messiness offsets g Hm) as Hr.
  destruct (render_line y offsets messiness g) as [[p|e] g1]; cbn [snd] in Hr; subst g1;
    [|reflexivity].
  destruct (stroked_path p color width); [|reflexivity].
  specialize (IH (y - line_height) g).
  destruct (draw_loop (y - line_height) rows messiness g) as [[paths|e] g2];
    cbn [snd] in IH; subst g2; reflexivity.
Qed.

Lemma draw_loop_paths (messiness : Q) (rows : list (coords * list N * list N * Z)) :
  forall k g paths g',
    draw_loop (cursor_after k) rows messiness g = (Ok paths, g') ->
    Forall2 (path_of_line messiness) (nonempty_lines_from k rows) paths.
Proof.
  induction rows as [|[[[offsets line] color] width] rows IH]; intros k g paths g' H.
  - injection H as <- _. constructor.
  - destruct line as [|ch line].
    + cbn [draw_loop nonempty_lines_from] in *.
      change (cursor_after k - line_height) with (cursor_after (S k)) in H. eapply IH, H.
    + rewrite draw_loop_cons in H. cbn [nonempty_lines_from].
      change (cursor_after k - line_height) with (cursor_after (S k)) in H.
      destruct (render_line (cursor_after k) offsets messiness g) as [[p|e] g1] eqn:Hp;
        [|discriminate H].
      unfold stroked_path in H.
      destruct (valid_paint color && valid_length width); [|discriminate H].
      destruct (draw_loop (cursor_after (S k)) rows messiness g1) as [[ps|e] g2] eqn:Hps;
        [|discriminate H].
      injection H as <- _. constructor; [|eapply IH, Hps].
      exists p, g, g1. split; [exact Hp|reflexivity].
Qed.

Lemma draw_loop_empty_sample (messiness : Q) (rows : list (coords * list N * list N * Z)) :
  forall j line color width initial_y g,
    rows !! j = Some ([], line, color, width) -> line <> [] ->
    exists e g', draw_loop initial_y rows messiness g = (Raise e, g').
Proof.
  induction rows as [|[[[offsets l] c] w] rows IH]; intros j line color width y g Hj Hline;
    [discriminate|].
  destruct j as [|j].
  - injection Hj as -> -> -> ->. destruct line as [|ch line]; [contradiction|].
    rewrite draw_loop_cons, render_line_empty_sample. eauto.
  - cbn in Hj. destruct l as [|ch l]; [cbn [draw_loop]; eapply IH; eassumption|].
    rewrite draw_loop_cons.
    destruct (render_line y offsets messiness g) as [[p|e] g1]; [|eauto].
    destruct (stroked_path p c w); [|eauto].
    destruct (IH j line color width (y - line_height) g1 Hj Hline) as (e & g' & ->). eauto.
Qed.



(** X17. With a messiness of at most 0, [_draw] draws nothing from the
    random generator, whether it succeeds or raises. *)
Theorem draw_without_messiness_leaves_generator
        (strokes : list coords) (lines : list (list N))
        (stroke_colors : option (list (list N))) (stroke_widths : option (list Z))
        (messiness : Q) (g : G) :
  messiness <= 0 ->
  (_draw strokes lines stroke_colors stroke_widths messiness g).2 = g.
Proof.
  intros Hm. unfold _draw. cbv zeta. unfold io_bind, io_ret.
  pose proof (draw_loop_state messiness
                (zip4 strokes lines
                   (or_default stroke_colors (replicate (length lines) black))
                   (or_default stroke_widths (replicate (length lines) 2%Z)))
                Hm (- (3 * line_height / 4)) g) as Hs.
  destruct (draw_loop _ _ messiness g) as [[paths|e] g1]; cbn [snd] in Hs; subst g1;
    reflexivity.
Qed.

(** *** When [_draw] raises *)

(** The smoothed points of a sample: [offsets[:, :2] *= 1.5], then
    [offsets_to_coords], then [denoise]. *)
Definition smoothed (offsets : coords) : result coords :=
  denoise (offsets_to_coords
             (map (fun r => mk_row (col0 r * 1.5) (col1 r * 1.5) (col2 r)) offsets)).

(** A sample that the loop body can render: it has a row, and
    [np.linalg.inv] returns on the normal matrix of its smoothed
    points. *)
Definition renders (offsets : coords) : Prop :=
  offsets <> [] /\
  exists s M, smoothed offsets = Ok s /\ np_linalg_inv (normal_matrix s) = Ok M.

(** A line of the loop that adds its path or is skipped: when it is not
    empty, its sample can be rendered and svgwrite accepts its colour and
    its width. *)
Definition row_renders (row : coords * list N * list N * Z) : Prop :=
  row.1.1.2 <> [] ->
  renders row.1.1.1 /\ valid_paint row.1.2 && valid_length row.2 = true.

Lemma cumsum_from_length (acc : Q * Q) (a : list (Q * Q)) :
  length (cumsum_from acc a) = length a.
Proof.
  revert acc. induction a as [|d a IH]; intros acc; [reflexivity|].
  cbn [cumsum_from length]. f_equal. apply IH.
Qed.

Lemma offsets_to_coords_length (offsets : coords) :
  length (offsets_to_coords offsets) = length offsets.
Proof.
  unfold offsets_to_coords. rewrite length_zip_with.
  destruct offsets as [|r offsets]; [reflexivity|].
  cbn [map np_cumsum length]. rewrite cumsum_from_length, length_map. lia.
Qed.

Lemma denoise_rows (c : coords) :
  c <> [] -> exists s, denoise c = Ok s /\ length s = length c.
Proof.
  intros Hne.
  destruct (DenoiseProps.denoise_loop_ok (split_strokes c)) as (new_coords & Hloop & Hall).
  assert (Heos : map col2 (concat new_coords) = map col2 c).
  { rewrite (DenoiseProps.concat_eos_preserved _ _ Hall), concat_filter_nonempty.
    rewrite concat_split_strokes. reflexivity. }
  exists (concat new_coords). split; [|apply eos_length, Heos].
  unfold denoise. rewrite Hloop. cbn. destruct new_coords as [|s ss]; [|reflexivity].
  cbn in Heos. destruct c; [contradiction|discriminate].
Qed.

Lemma place_rows (initial_y : Q) (s : coords) :
  s <> [] -> exists out, place initial_y s = Ok out /\ length out = length s.
Proof.
  destruct s as [|r s]; [contradiction|]. intros _. unfold place.
  cbn [map]. unfold xy_entries. cbn [map concat app np_min rbind np_max].
  eexists. split; [reflexivity|]. cbn [length]. rewrite !length_map. reflexivity.
Qed.

Lemma path_loop_length (prev_eos : Q) (s : coords) :
  length (path_loop prev_eos s) = length s.
Proof.
  revert prev_eos. induction s as [|r s IH]; intros prev_eos; [reflexivity|].
  cbn [path_loop length]. f_equal. apply IH.
Qed.

Lemma io_bind_lift_ok {W A B} (a : A) (k : A -> IO W B) (w : W) :
  io_bind (io_lift (Ok a)) k w = k a w.
Proof. reflexivity. Qed.

Lemma io_bind_lift_raise {W A B} (e : exn) (k : A -> IO W B) (w : W) :
  io_bind (io_lift (Raise e)) k w = (Raise e, w).
Proof. reflexivity. Qed.

(** The loop body on a sample with rows: smoothing succeeds, and the
    body raises exactly when [np.linalg.inv] does. *)
Lemma render_line_cases (initial_y messiness : Q) (offsets : coords) (g : G) :
  offsets <> [] ->
  exists s,
    smoothed offsets = Ok s /\
    match np_linalg_inv (normal_matrix s) with
    | Ok _ => exists path g',
        render_line initial_y offsets messiness g = (Ok path, g') /\
        length path = S (length offsets)
    | Raise e => render_line initial_y offsets messiness g = (Raise e, g)
    end.
Proof.
  intros Hne. unfold smoothed, render_line. cbv zeta.
  set (c := offsets_to_coords _).
  assert (Hc : length c = length offsets).
  { subst c. rewrite offsets_to_coords_length, length_map. reflexivity. }
  destruct (denoise_rows c) as (s & Hs & Hlen).
  { intros E. rewrite E in Hc. destruct offsets; [contradiction|discriminate]. }
  exists s. split; [exact Hs|].
  rewrite Hs, io_bind_lift_ok. cbv beta. unfold align, regression.
  destruct (np_linalg_inv (normal_matrix s)) as [M|e]; cbn [rbind];
    [rewrite io_bind_lift_ok; cbv beta|rewrite io_bind_lift_raise; reflexivity].
  match goal with |- context [io_ret (map ?f s)] => set (s2 := map f s) end.
  assert (Hlen2 : length s2 = length offsets).
  { subst s2. rewrite length_map, Hlen. exact Hc. }
  unfold io_bind at 1.
  assert (Hstep : exists s3 g1,
             (if Qlt_b 0 messiness then io_of_state (add_messiness s2 messiness)
              else io_ret s2) g = (Ok s3, g1) /\ length s3 = length offsets).
  { destruct (Qlt_b 0 messiness).
    - unfold io_of_state. pose proof (add_messiness_eos s2 messiness g) as Heos.
      destruct (add_messiness s2 messiness g) as [s3 g1]. exists s3, g1.
      split; [reflexivity|]. rewrite <- Hlen2. apply eos_length, Heos.
    - exists s2, g. split; [reflexivity|exact Hlen2]. }
  destruct Hstep as (s3 & g1 & -> & Hlen3).
  destruct (place_rows initial_y s3) as (out & Hout & Hlen4).
  { intros E. rewrite E in Hlen3. destruct offsets; [contradiction|discriminate]. }
  unfold io_bind, io_lift, io_ret. rewrite Hout.
  exists (path_commands out), g1. split; [reflexivity|].
  unfold path_commands. cbn [length]. rewrite path_loop_length, Hlen4, Hlen3. reflexivity.
Qed.

Lemma draw_loop_succeeds_iff (messiness : Q) (rows : list (coords * list N * list N * Z)) :
  forall initial_y g,
    (exists paths g', draw_loop initial_y rows messiness g = (Ok paths, g')) <->
    Forall row_renders rows.
Proof.
  induction rows as [|[[[offsets line] color] width] rows IH]; intros y g.
  - split; [constructor|]. intros _. exists [], g. reflexivity.
  - destruct line as [|ch line].
    + cbn [draw_loop]. rewrite IH. split; intros H.
      * constructor; [intros Hline; contradiction|exact H].
      * inversion H; assumption.
    + rewrite draw_loop_cons. unfold stroked_path. split.
      * intros (paths & g' & H).
        destruct (render_line y offsets messiness g) as [[p|e] g1] eqn:Hp; [|discriminate H].
        destruct (valid_paint color && valid_length width) eqn:Hsvg; [|discriminate H].
        destruct (draw_loop (y - line_height) rows messiness g1) as [[ps|e] g2] eqn:Hps;
          [|discriminate H].
        constructor; [|apply (IH (y - line_height) g1); eauto].
        intros _. cbn [fst snd]. split; [|exact Hsvg].
        destruct offsets as [|r offsets];
          [rewrite render_line_empty_sample in Hp; discriminate Hp|].
        split; [discriminate|].
        destruct (render_line_cases y messiness (r :: offsets) g) as (s & Hs & Hcase);
          [discriminate|].
        exists s. destruct (np_linalg_inv (normal_matrix s)) as [M|e]; [eauto|].
        rewrite Hcase in Hp. discriminate Hp.
      * intros HF. inversion HF as [|? ? Hrow Hrest]; subst.
        destruct Hrow as ((Hne & s & M & Hs & HM) & Hsvg); [discriminate|].
        cbn [fst snd] in *.
        destruct (render_line_cases y messiness offsets g Hne) as (s' & Hs' & Hcase).
        rewrite Hs in Hs'. injection Hs' as <-. rewrite HM in Hcase.
        destruct Hcase as (path & g1 & Hp & _).
        destruct (proj2 (IH (y - line_height) g1) Hrest) as (ps & g2 & Hps).
        rewrite Hp, Hsvg, Hps. eauto.
Qed.


(** X19. A path that the loop body builds has one command for each row
    of the sample, after the initial [M0,0]. *)
Theorem render_line_one_command_per_row
        (initial_y messiness : Q) (offsets : coords) (g g' : G)
        (path : list (letter * Q * Q)) :
  render_line initial_y offsets messiness g = (Ok path, g') ->
  length path = S (length offsets).
Proof.
  intros H. destruct offsets as [|r offsets];
    [rewrite render_line_empty_sample in H; discriminate H|].
  destruct (render_line_cases initial_y messiness (r :: offsets) g) as (s & _ & Hcase);
    [discriminate|].
  destruct (np_linalg_inv (normal_matrix s)) as [M|e].
  - destruct Hcase as (path' & g1 & Hp & Hlen). rewrite Hp in H.
    injection H as <- _. exact Hlen.
  - rewrite Hcase in H. discriminate H.
Qed.

End WithLibraries.

Import Fixtures TransformProps.

(** The libraries of the examples with every result brought to lowest
    terms, so that the fractions of a whole drawing stay small. *)
Definition lowest_smooth7 (x : list Q) (window_length polyorder : nat) : list Q :=
  map Qred (smooth7 x window_length polyorder).

Lemma lowest_smooth7_length (x : list Q) (window_length polyorder : nat) :
  length (lowest_smooth7 x window_length polyorder) = length x.
Proof. unfold lowest_smooth7. rewrite length_map. apply smooth7_length. Qed.

Definition lowest_signal : Signal :=
  {| savgol_filter := lowest_smooth7;
     savgol_filter_length := lowest_smooth7_length;
     interp1d_cubic := fun y t => Qred (cubic4 y t) |}.

Definition lowest_trig : Trig :=
  {| np_sin := fun t => Qred (sin_poly t); np_cos := fun t => Qred (cos_poly t) |}.

Definition lowest_inv (M : matrix2) : result matrix2 :=
  match exact_inv M with
  | Ok M' => Ok ((Qred M'.1.1, Qred M'.1.2), (Qred M'.2.1, Qred M'.2.2))
  | Raise e => Raise e
  end.

Definition lowest_linalg : Linalg :=
  {| np_linalg_inv := lowest_inv; np_arctan := fun t => Qred (arctan_poly t) |}.

(** A validation for the examples: the two colour names of [_draw] and
    the widths that are not negative. *)
#[local] Instance two_colours : Svgwrite :=
  {| valid_paint := fun color => bool_decide (color = black) || bool_decide (color = white);
     valid_length := fun width => (0 <=? width)%Z |}.

(** A sample of three offsets: a pen-lift, a move to the right, and a
    second point there. *)
Definition short_sample : coords := [mk_row 0 0 1; mk_row 2 0 0; mk_row 2 0 1].

(** Three samples for the lines "H", "" and "i". *)
Definition example_strokes : list coords := [short_sample; []; short_sample].
Definition example_lines : list (list N) := [[72%N]; []; [105%N]].

Definition example_path : list (letter * Q * Q) := Eval vm_compute in
    match (@render_line (list Q) tape_random lowest_trig lowest_signal lowest_linalg
             (cursor_after 0) short_sample 0 []).1 with
    | Ok p => p
    | Raise _ => []
    end.

Definition example_drawing : drawing := Eval vm_compute in
    match (@_draw (list Q) tape_random lowest_trig lowest_signal lowest_linalg two_colours
             example_strokes example_lines None None 0 []).1 with
    | Ok dwg => dwg
    | Raise _ => mk_drawing (0, 0) []
    end.



Lemma draw_without_messiness_leaves_generator_witness :
  (_draw example_strokes example_lines None None 0 [1 # 2; 1 # 3]).2 = [1 # 2; 1 # 3].
Proof.
  apply (draw_without_messiness_leaves_generator
           example_strokes example_lines None None 0 [1 # 2; 1 # 3]).
  vm_compute. discriminate.
Defined.

(** Three offsets give "M0,0" and three more commands. *)
Lemma render_line_one_command_per_row_witness :
  length example_path = S (length short_sample).
Proof.
  apply (@render_line_one_command_per_row
           (list Q) tape_random lowest_trig lowest_signal lowest_linalg
           (cursor_after 0) 0 short_sample [] [] example_path).
  vm_compute. reflexivity.
Defined.

End DrawProps.

(** ** [draw] *)

Module PlotProps.
Import Np Drawing Transforms Plot NpProps.

(** The loop stops at the first row that ends a stroke; without such a
    row it leaves every point in [stroke]. *)
Lemma plot_loop_stops (strokes : coords) :
  forall stroke w,
    stroke <> [] \/ strokes <> [] ->
    plot_loop stroke strokes w = (Failed TypeError, w) \/
    exists stroke', stroke' <> [] /\ plot_loop stroke strokes w = (Done stroke', w).
Proof.
  induction strokes as [|r rest IH]; intros stroke w H.
  - right. exists stroke. split; [|reflexivity]. destruct H as [H|H]; [exact H|contradiction].
  - cbn [plot_loop]. destruct (Qeq_bool (col2 r) 1); [left; reflexivity|].
    apply IH. left. destruct stroke; discriminate.
Qed.

Section WithLibraries.
Context {trig : Trig} {signal : Signal} {linalg : Linalg}.

Lemma stack_columns_rows (xs ys es : list Q) (s : coords) :
  stack_columns xs ys es = Ok s -> es <> [] -> s <> [].
Proof.
  unfold stack_columns. intros H Hes.
  destruct ((length xs =? length ys)%nat && (length ys =? length es)%nat) eqn:E;
    [|discriminate H].
  injection H as <-. apply andb_prop in E as [E1 E2].
  apply Nat.eqb_eq in E1, E2.
  destruct es as [|e es]; [contradiction|].
  destruct ys as [|y ys]; [discriminate E2|].
  destruct xs as [|x xs]; [discriminate E1|]. discriminate.
Qed.

Lemma interpolate_stroke_rows (factor : Z) (stroke s : coords) :
  interpolate_stroke factor stroke = Ok s -> s <> [].
Proof.
  unfold interpolate_stroke. intros H.
  destruct (if (3 <? length stroke)%nat then _ else _) as [xy|e]; [|discriminate H].
  cbn [rbind] in H. destruct (length xy) as [|m]; [discriminate H|]. cbn [rebuilt_eos rbind] in H.
  apply stack_columns_rows in H; [exact H|]. destruct (replicate m 0); discriminate.
Qed.

Lemma interpolate_loop_rows (factor : Z) (strokes new_coords : list coords) :
  interpolate_loop factor strokes = Ok new_coords -> Forall (fun s => s <> []) new_coords.
Proof.
  revert new_coords. induction strokes as [|stroke rest IH]; intros new_coords H.
  - injection H as <-. constructor.
  - cbn [interpolate_loop] in H. destruct (length stroke =? 0)%nat; [apply IH, H|].
    destruct (interpolate_stroke factor stroke) as [s|e] eqn:Hs; [|discriminate H].
    cbn [rbind] in H. destruct (interpolate_loop factor rest) as [ss|e]; [|discriminate H].
    injection H as <-. constructor; [eapply interpolate_stroke_rows, Hs|apply IH; reflexivity].
Qed.

Lemma interpolate_rows (factor : Z) (c out : coords) :
  interpolate c factor = Ok out -> out <> [].
Proof.
  unfold interpolate. intros H.
  destruct (interpolate_loop factor (split_strokes c)) as [new_coords|e] eqn:Hloop;
    [|discriminate H].
  apply interpolate_loop_rows in Hloop. cbn [rbind] in H.
  destruct Hloop as [|s ss Hs _]; [discriminate H|].
  injection H as <-. destruct s; [contradiction|discriminate].
Qed.

Lemma align_rows (s out : coords) : align s = Ok out -> length out = length s.
Proof.
  unfold align. destruct (regression s) as [fit|e]; [|discriminate].
  intros H. injection H as <-. apply length_map.
Qed.

(** The strokes that [draw] plots have a row when the offsets have. *)
Lemma prepare_rows (offsets : coords) (align_strokes denoise_strokes : bool)
      (interpolation_factor : option Z) (strokes : coords) :
  offsets <> [] ->
  prepare offsets align_strokes denoise_strokes interpolation_factor = Ok strokes ->
  strokes <> [].
Proof.
  intros Hne. unfold prepare. cbv zeta.
  assert (H0 : offsets_to_coords offsets <> []).
  { intros E. apply (f_equal length) in E.
    rewrite DrawProps.offsets_to_coords_length in E. destruct offsets; [contradiction|discriminate]. }
  set (c := offsets_to_coords offsets) in *.
  assert (H1 : forall s1, (if denoise_strokes then denoise c else Ok c) = Ok s1 -> s1 <> []).
  { intros s1 H. destruct denoise_strokes; [|injection H as <-; exact H0].
    destruct (DrawProps.denoise_rows c H0) as (s & Hs & Hlen). rewrite Hs in H.
    injection H as <-. intros E. rewrite E in Hlen. destruct c; [contradiction|discriminate]. }
  destruct (if denoise_strokes then denoise c else Ok c) as [s1|e]; [|discriminate].
  specialize (H1 s1 eq_refl). cbn [rbind].
  assert (H2 : forall s2,
             match interpolation_factor with
             | Some factor => interpolate s1 factor
             | None => Ok s1
             end = Ok s2 -> s2 <> []).
  { intros s2 H. destruct interpolation_factor as [factor|];
      [eapply interpolate_rows, H|injection H as <-; exact H1]. }
  destruct (match interpolation_factor with Some _ => _ | None => _ end) as [s2|e];
    [|discriminate].
  specialize (H2 s2 eq_refl). cbn [rbind].
  destruct align_strokes; [|intros H; injection H as <-; exact H2].
  intros H E. apply align_rows in H. rewrite E in H. destruct s2; [contradiction|discriminate].
Qed.

(** X20. [draw] plots nothing: for offsets with at least one row it
    raises.  Either a library step ([denoise], [interpolate], [align])
    raises before any call to matplotlib, or, after [plt.subplots], the
    first stroke to be plotted raises the [TypeError] of [coords[0]] on a
    [zip] object, before [ax.plot] is called. *)
Theorem draw_never_plots
        (offsets : coords) (align_strokes denoise_strokes : bool)
        (interpolation_factor : option Z) (w : list call) :
  offsets <> [] ->
  match prepare offsets align_strokes denoise_strokes interpolation_factor with
  | Raise e =>
      draw offsets align_strokes denoise_strokes interpolation_factor w
      = (Failed (Library e), w)
  | Ok _ =>
      draw offsets align_strokes denoise_strokes interpolation_factor w
      = (Failed TypeError, w ++ [Subplots])
  end.
Proof.
  intros Hne. unfold draw.
  destruct (prepare offsets align_strokes denoise_strokes interpolation_factor)
    as [strokes|e] eqn:Hp; [|reflexivity].
  apply (prepare_rows _ _ _ _ _ Hne) in Hp. cbv zeta.
  destruct (plot_loop_stops strokes [] (w ++ [Subplots])) as [->|(stroke & Hs & ->)];
    [right; exact Hp|reflexivity|].
  destruct stroke; [contradiction|reflexivity].
Qed.

End WithLibraries.

Import Fixtures TransformProps.

(** Two strokes, neither smoothed nor aligned. *)
Lemma draw_never_plots_witness :
  draw two_strokes false false None [] = (Failed TypeError, [Subplots]).
Proof.
  apply (draw_never_plots two_strokes false false None []). discriminate.
Defined.

End PlotProps.
